(** * Corridor and CorridorSequence: a shallow embedding of [src/corridor.cpp]

    The development follows the translation unit top to bottom: the numeric
    and geometric value types, the two collaborators of a corridor (the
    reference spline and the lateral-offset polyline), the [Corridor]
    operations, and the [CorridorSequence] operations.

    Numbers.  [RealType] is [double] in the sources.  It is embedded as the
    canonical rationals [Qc]: exact arithmetic, decidable order, Leibniz
    equality, and every definition below evaluates.  Rounding, infinities and
    NaN are outside this model.  The sampling loop, whose course depends on
    how the additions round, is embedded a second time over an arbitrary
    arithmetic (module [Sampling]) and read both over [Qc] and over the
    binary64 numbers of the prover, which are the doubles of the sources. *)

From Stdlib Require Import Floats.
From Stdlib Require Import Ascii String.
From Stdlib Require Import QArith Qcanon Qcabs Qround ZArith List Lia Lqa Bool Arith.
Import ListNotations.
Open Scope Qc_scope.
Open Scope list_scope.

(** ** Numbers *)

Abbreviation RealType := Qc.
Definition IdType : Type := Z.

(** [a < b] and [a <= b] on doubles, as booleans. *)
Definition Qcltb (a b : RealType) : bool :=
  match a ?= b with Lt => true | _ => false end.

Definition Qcleb (a b : RealType) : bool :=
  match a ?= b with Gt => false | _ => true end.

(** The literal [0.5]. *)
Definition one_half : RealType := Q2Qc (1 # 2).

(** [n] as a real number. *)
Definition of_nat (n : nat) : RealType := Q2Qc (inject_Z (Z.of_nat n)).

(** ** Cartesian and Frenet value types *)

Record CartesianPoint2D : Type := mkPoint { pt_x : RealType; pt_y : RealType }.
Record CartesianVector2D : Type := mkVector { vec_x : RealType; vec_y : RealType }.
Definition CartesianPoints2D : Type := list CartesianPoint2D.

(** [k * v] and [p + v], the two operators used when a boundary point is
    placed along the normal. *)
Definition scale (k : RealType) (v : CartesianVector2D) : CartesianVector2D :=
  mkVector (k * vec_x v) (k * vec_y v).

Definition translate (p : CartesianPoint2D) (v : CartesianVector2D) : CartesianPoint2D :=
  mkPoint (pt_x p + vec_x v) (pt_y p + vec_y v).

(** [p - q] as a displacement, and the dot product. *)
Definition displacement (p q : CartesianPoint2D) : CartesianVector2D :=
  mkVector (pt_x p - pt_x q) (pt_y p - pt_y q).

Definition dot (u v : CartesianVector2D) : RealType :=
  vec_x u * vec_x v + vec_y u * vec_y v.

(** A Frenet position.  The accessor the sources call [l()] is the
    coordinate along the curve (the same letter names the arc-length
    variables [query_l] and [delta_l] of the sampling loop); [d()] is the
    lateral deviation. *)
Record FrenetPosition2D : Type := mkFrenet { pos_l : RealType; pos_d : RealType }.

Record FrenetFrame2D : Type := mkFrame {
  frame_origin : CartesianPoint2D;
  frame_tangent : CartesianVector2D;
  frame_normal : CartesianVector2D }.

Module FrenetPositionWithFrame.
Record t : Type := make {
  frame : FrenetFrame2D;
  position : FrenetPosition2D }.
End FrenetPositionWithFrame.

Definition BoundaryDistances : Type := (RealType * RealType)%type.

(** ** The lateral-offset profile *)

Module FrenetPolyline.

(** Modelled from the spec: the class FrenetPolyline is declared outside
    corridor.cpp.  The spec describes it as an ordered piecewise-linear
    mapping from arc-length to a lateral offset, built with a fixed node
    count, filled with [SetPoint (index, (arc_length, value))], and read with
    [deviationAt], which clamps to the nearest end node outside the domain. *)
Definition t : Type := list (RealType * RealType).

(** Modelled from the spec: construction with a fixed node count. *)
Definition make (num_pts : nat) : t := repeat (0, 0) num_pts.

(** Modelled from the spec: [SetPoint (index, node)] overwrites the node at
    [index]; the spec says nothing about an index past the node count, where
    this model leaves the profile as it is. *)
Fixpoint SetPoint (p : t) (index : nat) (node : RealType * RealType) : t :=
  match p, index with
  | [], _ => []
  | _ :: rest, O => node :: rest
  | n0 :: rest, S i => n0 :: SetPoint rest i node
  end.

(** Modelled from the spec: piecewise-linear lookup, clamped to the first
    node before the domain and to the last node after it.  The spec gives no
    value for a profile without nodes; [0] stands for it here. *)
Fixpoint deviationAt (p : t) (arc_length : RealType) : RealType :=
  match p with
  | [] => 0
  | (l0, d0) :: rest =>
      match rest with
      | [] => d0
      | (l1, d1) :: _ =>
          if Qcltb arc_length l0 then d0
          else if Qcltb arc_length l1
               then d0 + (d1 - d0) * ((arc_length - l0) / (l1 - l0))
               else deviationAt rest arc_length
      end
  end.

End FrenetPolyline.

(** ** The reference spline *)

Module CubicSpline.

(** The class [cubic_spline::CubicSpline] is a collaborator declared outside
    corridor.cpp; a spline is represented by the member functions that
    corridor.cpp calls on it.  [getFrenetPositionWithFrame] takes the point
    and the arc-length hint. *)
Record t : Type := make {
  GetSize : nat;
  GetArclengthAtIndex : nat -> RealType;
  GetTotalLength : RealType;
  GetPositionAt : RealType -> CartesianPoint2D;
  GetNormalVectorAt : RealType -> CartesianVector2D;
  GetCurvatureAt : RealType -> RealType;
  getFrenetPositionWithFrame : CartesianPoint2D -> RealType -> FrenetPositionWithFrame.t;
  toFrenetPolyline : CartesianPoints2D -> FrenetPolyline.t }.

End CubicSpline.

(** ** Corridor *)

Module Corridor.

Record t : Type := make {
  referenceLine_ : CubicSpline.t;
  leftBound_ : FrenetPolyline.t;
  rightBound_ : FrenetPolyline.t }.

Section Construction.

(** The spline constructors [cs::CubicSpline (id, reference_line_pts)] and
    [cs::CubicSpline (id, reference_line_pts, first_tangent, last_tangent)]
    are defined outside corridor.cpp. *)
Variable CubicSpline_of_points : IdType -> CartesianPoints2D -> CubicSpline.t.
Variable CubicSpline_of_points_tangents :
  IdType -> CartesianPoints2D -> CartesianVector2D -> CartesianVector2D -> CubicSpline.t.

(** The body of [for (int i = 0; i < num_pts; i++)] in the fixed-width
    constructors, with [todo] iterations left and [i] the loop counter. *)
Fixpoint fixed_bounds_loop (todo i : nat) (referenceLine : CubicSpline.t)
    (distance_left_boundary distance_right_boundary : RealType)
    (leftBound rightBound : FrenetPolyline.t) : FrenetPolyline.t * FrenetPolyline.t :=
  match todo with
  | O => (leftBound, rightBound)
  | S todo' =>
      let arc_length := CubicSpline.GetArclengthAtIndex referenceLine i in
      fixed_bounds_loop todo' (S i) referenceLine
        distance_left_boundary distance_right_boundary
        (FrenetPolyline.SetPoint leftBound i (arc_length, distance_left_boundary))
        (FrenetPolyline.SetPoint rightBound i (arc_length, - distance_right_boundary))
  end.

Definition with_fixed_bounds (referenceLine : CubicSpline.t)
    (distance_left_boundary distance_right_boundary : RealType) : t :=
  let num_pts := CubicSpline.GetSize referenceLine in
  let bounds :=
    fixed_bounds_loop num_pts 0 referenceLine
      distance_left_boundary distance_right_boundary
      (FrenetPolyline.make num_pts) (FrenetPolyline.make num_pts) in
  make referenceLine (fst bounds) (snd bounds).

(** [Corridor (id, reference_line_pts, distance_left_boundary,
    distance_right_boundary)]. *)
Definition Corridor_fixed (id : IdType) (reference_line_pts : CartesianPoints2D)
    (distance_left_boundary distance_right_boundary : RealType) : t :=
  with_fixed_bounds (CubicSpline_of_points id reference_line_pts)
    distance_left_boundary distance_right_boundary.

(** The same with the end tangents of the spline given. *)
Definition Corridor_fixed_tangents (id : IdType) (reference_line_pts : CartesianPoints2D)
    (first_tangent last_tangent : CartesianVector2D)
    (distance_left_boundary distance_right_boundary : RealType) : t :=
  with_fixed_bounds
    (CubicSpline_of_points_tangents id reference_line_pts first_tangent last_tangent)
    distance_left_boundary distance_right_boundary.

(** [Corridor (id, reference_line_pts, left_boundary_pts, right_boundary_pts)]. *)
Definition Corridor_bounded (id : IdType)
    (reference_line_pts left_boundary_pts right_boundary_pts : CartesianPoints2D) : t :=
  let referenceLine := CubicSpline_of_points id reference_line_pts in
  make referenceLine
    (CubicSpline.toFrenetPolyline referenceLine left_boundary_pts)
    (CubicSpline.toFrenetPolyline referenceLine right_boundary_pts).

(** The same with the end tangents of the spline given. *)
Definition Corridor_bounded_tangents (id : IdType) (reference_line_pts : CartesianPoints2D)
    (first_tangent last_tangent : CartesianVector2D)
    (left_boundary_pts right_boundary_pts : CartesianPoints2D) : t :=
  let referenceLine :=
    CubicSpline_of_points_tangents id reference_line_pts first_tangent last_tangent in
  make referenceLine
    (CubicSpline.toFrenetPolyline referenceLine left_boundary_pts)
    (CubicSpline.toFrenetPolyline referenceLine right_boundary_pts).

End Construction.

Definition signedDistancesAt (c : t) (arc_length : RealType) : BoundaryDistances :=
  (FrenetPolyline.deviationAt (leftBound_ c) arc_length,
   FrenetPolyline.deviationAt (rightBound_ c) arc_length).

Definition widthAt (c : t) (arc_length : RealType) : RealType :=
  FrenetPolyline.deviationAt (leftBound_ c) arc_length
  + Qcabs (FrenetPolyline.deviationAt (rightBound_ c) arc_length).

Definition centerOffset (c : t) (arc_length : RealType) : RealType :=
  let distances := signedDistancesAt c arc_length in
  (fst distances + snd distances) * one_half.

Definition lengthReferenceLine (c : t) : RealType :=
  CubicSpline.GetTotalLength (referenceLine_ c).

(** Modelled from the spec: [Corridor::curvatureAt] is defined in the header,
    not in corridor.cpp; the spec lists curvature among the corridor's local
    queries on its reference curve. *)
Definition curvatureAt (c : t) (arc_length : RealType) : RealType :=
  CubicSpline.GetCurvatureAt (referenceLine_ c) arc_length.

Definition getFrenetPositionWithFrame (c : t) (position : CartesianPoint2D)
    (arc_length_hint : RealType) : FrenetPositionWithFrame.t :=
  CubicSpline.getFrenetPositionWithFrame (referenceLine_ c) position arc_length_hint.

(** *** Sampling into Cartesian polylines *)

(** The three output vectors that [fillCartesianPolylines] receives by
    pointer; the function is embedded as a transformer of their contents. *)
Record Polylines : Type := mkPolylines {
  reference_line : CartesianPoints2D;
  left_boundary : CartesianPoints2D;
  right_boundary : CartesianPoints2D }.

(** The three calls of [clear ()]. *)
Definition clear (out : Polylines) : Polylines := mkPolylines [] [] [].

(** The three points computed for one arc-length. *)
Definition reference_point (c : t) (query_l : RealType) : CartesianPoint2D :=
  CubicSpline.GetPositionAt (referenceLine_ c) query_l.

Definition left_point (c : t) (query_l : RealType) : CartesianPoint2D :=
  translate (CubicSpline.GetPositionAt (referenceLine_ c) query_l)
    (scale (FrenetPolyline.deviationAt (leftBound_ c) query_l)
       (CubicSpline.GetNormalVectorAt (referenceLine_ c) query_l)).

Definition right_point (c : t) (query_l : RealType) : CartesianPoint2D :=
  translate (CubicSpline.GetPositionAt (referenceLine_ c) query_l)
    (scale (FrenetPolyline.deviationAt (rightBound_ c) query_l)
       (CubicSpline.GetNormalVectorAt (referenceLine_ c) query_l)).

(** The block that evaluates the corridor at one arc-length and does the
    three [emplace_back]s; it occurs in the loop body and after the loop. *)
Definition emplace_sample (c : t) (query_l : RealType) (out : Polylines) : Polylines :=
  mkPolylines
    (reference_line out ++ [reference_point c query_l])
    (left_boundary out ++ [left_point c query_l])
    (right_boundary out ++ [right_point c query_l]).

(** [while (query_l <= max_length) { ...; query_l += delta_l; }].  The loop
    has no bound of its own, so the embedding takes fuel: one unit per
    evaluation of the loop condition, [None] when it runs out.  On exit the
    value of [query_l] is returned with the polylines. *)
Fixpoint sampling_loop (fuel : nat) (c : t) (delta_l max_length query_l : RealType)
    (out : Polylines) : option (RealType * Polylines) :=
  match fuel with
  | O => None
  | S fuel' =>
      if Qcleb query_l max_length
      then sampling_loop fuel' c delta_l max_length (query_l + delta_l)
             (emplace_sample c query_l out)
      else Some (query_l, out)
  end.

Definition fillCartesianPolylines (fuel : nat) (c : t) (delta_l : RealType)
    (out : Polylines) : option Polylines :=
  let out := clear out in
  let query_l := 0 in
  let max_length := CubicSpline.GetTotalLength (referenceLine_ c) in
  match sampling_loop fuel c delta_l max_length query_l out with
  | None => None
  | Some (query_l, out) =>
      if Qcltb max_length query_l
      then Some (emplace_sample c max_length out)
      else Some out
  end.

(** The polylines obtained by sampling at the arc-lengths of a list, in
    order: the vocabulary in which the output of the sampling is stated. *)
Definition sampled_at (c : t) (arc_lengths : list RealType) : Polylines :=
  mkPolylines (map (reference_point c) arc_lengths)
              (map (left_point c) arc_lengths)
              (map (right_point c) arc_lengths).

(** The effect of the sampling block at each arc-length of a list in turn. *)
Definition emplace_samples (c : t) (arc_lengths : list RealType) (out : Polylines)
    : Polylines :=
  fold_left (fun out query_l => emplace_sample c query_l out) arc_lengths out.

(** The arc-lengths [query_l, query_l + delta_l, ...] visited by [n] rounds
    of the loop, by repeated addition as the loop does it. *)
Fixpoint visited (n : nat) (delta_l query_l : RealType) : list RealType :=
  match n with
  | O => []
  | S n' => query_l :: visited n' delta_l (query_l + delta_l)
  end.

End Corridor.

(** ** CorridorSequence *)

(** What a call that may recurse without bound comes to: a value, the
    dereference of an iterator that designates no entry, or no answer within
    the fuel. *)
Inductive outcome (A : Type) : Type :=
| Returned (a : A)
| Undefined
| OutOfFuel.
Arguments Returned {A} a.
Arguments Undefined {A}.
Arguments OutOfFuel {A}.

Module CorridorSequence.

(** [CorridorSequenceMap] is a [std::map] from the start offset of a corridor
    to a shared pointer to it.  It is embedded as the list of its entries in
    iteration order; [ascending] is the invariant of the container (keys
    strictly increasing).  A [const_iterator] is a position in that list, and
    [end ()] is the length. *)
Definition CorridorSequenceMap : Type := list (RealType * Corridor.t).
Definition const_iterator : Type := nat.

Fixpoint ascending (keys : list RealType) : bool :=
  match keys with
  | [] => true
  | k :: rest =>
      match rest with
      | [] => true
      | k' :: _ => Qcltb k k' && ascending rest
      end
  end.

Definition ordered (corridor_map_ : CorridorSequenceMap) : bool :=
  ascending (map fst corridor_map_).

(** [std::map::upper_bound]: the position of the first entry whose key is
    greater than [arc_length], [end ()] when there is none. *)
Fixpoint upper_bound (corridor_map_ : CorridorSequenceMap) (arc_length : RealType)
    : const_iterator :=
  match corridor_map_ with
  | [] => O
  | (first, _) :: rest =>
      if Qcltb arc_length first then O else S (upper_bound rest arc_length)
  end.

(** Modelled from the spec: [CorridorSequence::get] is defined in the header,
    not in corridor.cpp.  The spec: get(s) returns the entry with the
    greatest key less than or equal to s, originally an upper-bound operation
    of the sorted container.  The spec gives no result when every key is
    greater than s; [None] stands for that. *)
Definition get (corridor_map_ : CorridorSequenceMap) (arc_length : RealType)
    : option const_iterator :=
  match upper_bound corridor_map_ arc_length with
  | O => None
  | S iter => Some iter
  end.

(** [this->get (arc_length)] followed by the dereference of the iterator. *)
Definition entry_at (corridor_map_ : CorridorSequenceMap) (arc_length : RealType)
    : option (RealType * Corridor.t) :=
  match get corridor_map_ arc_length with
  | None => None
  | Some iter => nth_error corridor_map_ iter
  end.

Definition signedDistancesAt (corridor_map_ : CorridorSequenceMap)
    (arc_length : RealType) : option BoundaryDistances :=
  match entry_at corridor_map_ arc_length with
  | None => None
  | Some (first, second) =>
      let delta_arc_length := arc_length - first in
      Some (Corridor.signedDistancesAt second delta_arc_length)
  end.

Definition widthAt (corridor_map_ : CorridorSequenceMap)
    (arc_length : RealType) : option RealType :=
  match entry_at corridor_map_ arc_length with
  | None => None
  | Some (first, second) =>
      let delta_arc_length := arc_length - first in
      Some (Corridor.widthAt second delta_arc_length)
  end.

Definition centerOffsetAt (corridor_map_ : CorridorSequenceMap)
    (arc_length : RealType) : option RealType :=
  match entry_at corridor_map_ arc_length with
  | None => None
  | Some (first, second) =>
      let delta_arc_length := arc_length - first in
      Some (Corridor.centerOffset second delta_arc_length)
  end.

Definition curvatureAt (corridor_map_ : CorridorSequenceMap)
    (arc_length : RealType) : option RealType :=
  match entry_at corridor_map_ arc_length with
  | None => None
  | Some (first, second) =>
      let delta_arc_length := arc_length - first in
      Some (Corridor.curvatureAt second delta_arc_length)
  end.

(** [corridor_map_.rbegin ()] of an empty map designates no entry. *)
Definition totalLength (corridor_map_ : CorridorSequenceMap) : option RealType :=
  match rev corridor_map_ with
  | [] => None
  | (first, second) :: _ => Some (first + Corridor.lengthReferenceLine second)
  end.

Section Resolution.

(** The default value of the parameter [arc_length_hint] of
    [Corridor::getFrenetPositionWithFrame], which the header declares. *)
Variable default_arc_length_hint : RealType.

(** [iter->second->getFrenetPositionWithFrame (position)]. *)
Definition project (c : Corridor.t) (position : CartesianPoint2D)
    : FrenetPositionWithFrame.t :=
  Corridor.getFrenetPositionWithFrame c position default_arc_length_hint.

(** The overload that takes an iterator.  The recursion has no measure in
    the sources, so the embedding takes fuel: one unit per call. *)
Fixpoint getFrenetPositionWithFrame_iter (fuel : nat)
    (corridor_map_ : CorridorSequenceMap) (position : CartesianPoint2D)
    (iter : const_iterator) : outcome FrenetPositionWithFrame.t :=
  match fuel with
  | O => OutOfFuel
  | S fuel' =>
      match nth_error corridor_map_ iter with
      | None => Undefined
      | Some (_, second) =>
          let position_with_frame := project second position in
          if Qcltb (pos_l (FrenetPositionWithFrame.position position_with_frame)) 0
             && negb (iter =? 0)%nat
          then getFrenetPositionWithFrame_iter fuel' corridor_map_ position (pred iter)
          else if Qcltb (Corridor.lengthReferenceLine second)
                        (pos_l (FrenetPositionWithFrame.position position_with_frame))
                  && negb (S iter =? length corridor_map_)%nat
          then getFrenetPositionWithFrame_iter fuel' corridor_map_ position (S iter)
          else Returned position_with_frame
      end
  end.

(** The overload that takes the starting arc-length. *)
Definition getFrenetPositionWithFrame (fuel : nat)
    (corridor_map_ : CorridorSequenceMap) (position : CartesianPoint2D)
    (start_arc_length : RealType) : outcome FrenetPositionWithFrame.t :=
  match get corridor_map_ start_arc_length with
  | None => Undefined
  | Some iter => getFrenetPositionWithFrame_iter fuel corridor_map_ position iter
  end.

End Resolution.

End CorridorSequence.

(** ** Vocabulary of the statements *)

(** The resolution algorithm in the words of its description, as a relation
    between the corridor where the search stands and the result: after
    projecting into that corridor, a negative arc-length with a previous
    corridor sends the search there; otherwise an arc-length beyond the
    reference length with a next corridor sends it there; otherwise the
    projection is the result. *)
Section ResolutionSpec.

Variable default_arc_length_hint : RealType.
Variable corridor_map_ : CorridorSequence.CorridorSequenceMap.
Variable position : CartesianPoint2D.

Definition s_local (c : Corridor.t) : RealType :=
  pos_l (FrenetPositionWithFrame.position
           (CorridorSequence.project default_arc_length_hint c position)).

Definition has_previous (iter : nat) : Prop := (0 < iter)%nat.
Definition has_next (iter : nat) : Prop := (S iter < length corridor_map_)%nat.

Inductive Resolves : nat -> FrenetPositionWithFrame.t -> Prop :=
| Resolves_previous iter first second r :
    nth_error corridor_map_ iter = Some (first, second) ->
    s_local second < 0 -> has_previous iter ->
    Resolves (pred iter) r ->
    Resolves iter r
| Resolves_next iter first second r :
    nth_error corridor_map_ iter = Some (first, second) ->
    ~ (s_local second < 0 /\ has_previous iter) ->
    Corridor.lengthReferenceLine second < s_local second -> has_next iter ->
    Resolves (S iter) r ->
    Resolves iter r
| Resolves_here iter first second :
    nth_error corridor_map_ iter = Some (first, second) ->
    ~ (s_local second < 0 /\ has_previous iter) ->
    ~ (Corridor.lengthReferenceLine second < s_local second /\ has_next iter) ->
    Resolves iter (CorridorSequence.project default_arc_length_hint second position).

End ResolutionSpec.

(** The chaining invariant of a sequence: the first key is [offset] (0 for a
    whole sequence) and every next key is the previous key plus the length of
    the previous corridor. *)
Fixpoint chained_from (offset : RealType)
    (corridor_map_ : CorridorSequence.CorridorSequenceMap) : bool :=
  match corridor_map_ with
  | [] => true
  | (first, second) :: rest =>
      Qc_eq_bool first offset
      && chained_from (first + Corridor.lengthReferenceLine second) rest
  end.

Definition chained (corridor_map_ : CorridorSequence.CorridorSequenceMap) : bool :=
  chained_from 0 corridor_map_.

(** The sum of the reference-line lengths of the corridors of a sequence. *)
Definition sum_of_lengths (corridor_map_ : CorridorSequence.CorridorSequenceMap)
    : RealType :=
  fold_right (fun entry acc => Corridor.lengthReferenceLine (snd entry) + acc)
    0 corridor_map_.

(** ** Fixtures *)

Definition real (z : Z) : RealType := Q2Qc (inject_Z z).

(** A reference line without curvature: it starts at [origin], runs along the
    unit vector [tangent] for [total_length], and projects a point by the two
    dot products, also before its start and beyond its end. *)
Definition straight_line (origin : CartesianPoint2D) (tangent : CartesianVector2D)
    (total_length : RealType) : CubicSpline.t :=
  let normal := mkVector (- vec_y tangent) (vec_x tangent) in
  let to_frenet := fun p : CartesianPoint2D =>
    mkFrenet (dot (displacement p origin) tangent) (dot (displacement p origin) normal) in
  CubicSpline.make 2
    (fun i => match i with O => 0 | S _ => total_length end)
    total_length
    (fun s => translate origin (scale s tangent))
    (fun _ => normal)
    (fun _ => 0)
    (fun p _ =>
       FrenetPositionWithFrame.make
         (mkFrame (translate origin (scale (pos_l (to_frenet p)) tangent)) tangent normal)
         (to_frenet p))
    (map (fun p => (pos_l (to_frenet p), pos_d (to_frenet p)))).

Definition east : CartesianVector2D := mkVector 1 0.
Definition north : CartesianVector2D := mkVector 0 1.

(** The reference line of length 10 that runs east from the origin, and its
    two end points. *)
Definition line_A : CubicSpline.t := straight_line (mkPoint 0 0) east (real 10).
Definition points_A : CartesianPoints2D := [mkPoint 0 0; mkPoint (real 10) 0].

Definition fixed_corridor (referenceLine : CubicSpline.t) : Corridor.t :=
  Corridor.with_fixed_bounds referenceLine (real 2) (Q2Qc (3 # 2)).

(** The reference line of length 10 that runs north from (10, 0). *)
Definition line_north : CubicSpline.t :=
  straight_line (mkPoint (real 10) 0) north (real 10).

(** Two corridors of length 10 meeting at a right angle in (10, 0): the
    first runs east from the origin, the second north from the corner. *)
Definition corner_map : CorridorSequence.CorridorSequenceMap :=
  [ (0, fixed_corridor line_A);
    (real 10, fixed_corridor line_north) ].

(** A point in the outer wedge of the corner: beyond the end of the first
    corridor and before the start of the second. *)
Definition outside_corner : CartesianPoint2D := mkPoint (real 11) (real (-1)).

Definition corridor_B : Corridor.t :=
  fixed_corridor (straight_line (mkPoint (real 10) 0) east (real 15)).

(** The point on the reference line of B at local arc-length 2. *)
Definition point_in_B : CartesianPoint2D := mkPoint (real 12) 0.

(** Corridor A of length 10 and corridor B of length 15 chained at offset 10,
    both running east. *)
Definition two_corridors : CorridorSequence.CorridorSequenceMap :=
  [ (0, fixed_corridor line_A);
    (real 10, corridor_B) ].

(** A corridor of length 2, for sampling with step 0.7 and with step 0.5. *)
Definition short_corridor : Corridor.t :=
  fixed_corridor (straight_line (mkPoint 0 0) east (real 2)).

(** ** Stream output of corridor paths *)

Module Printing.

(** A [CorridorPath] is a sequence of corridor pointers and [CorridorPaths]
    a sequence of paths.  An output stream is embedded as the text written
    to it so far, and [operator<<] as the function that extends it. *)
Definition CorridorPath : Type := list Corridor.t.
Definition CorridorPaths : Type := list CorridorPath.

Section Operators.

(** What [os << c->id ()] writes: [Corridor::id] and the formatting of an
    [IdType] are declared outside corridor.cpp. *)
Variable print_id : Corridor.t -> string.

(** [operator<< (std::ostream&, const CorridorPath&)]. *)
Definition print_path (os : string) (path : CorridorPath) : string :=
  let os := (os ++ "Corridor-Path:")%string in
  let os := fold_left (fun os c => ((os ++ " -> ") ++ print_id c)%string) path os in
  (os ++ String "010" EmptyString)%string.

(** [operator<< (std::ostream&, const CorridorPaths&)]. *)
Definition print_paths (os : string) (paths : CorridorPaths) : string :=
  let os := (os ++ "--- Corridor-Paths ---" ++ String "010" EmptyString)%string in
  fold_left (fun os path => (print_path os path ++ String "010" EmptyString)%string)
    paths os.

(** The text of one path and of a list of paths, written out. *)
Definition path_text (path : CorridorPath) : string :=
  ("Corridor-Path:"
   ++ String.concat "" (map (fun c => (" -> " ++ print_id c)%string) path)
   ++ String "010" EmptyString)%string.

Definition paths_text (paths : CorridorPaths) : string :=
  ("--- Corridor-Paths ---" ++ String "010" EmptyString
   ++ String.concat ""
        (map (fun path => (path_text path ++ String "010" EmptyString)%string) paths))%string.

End Operators.

End Printing.

(** ** The sampling of a corridor over an arithmetic *)

Module Sampling.

(** The operations on [RealType] that [fillCartesianPolylines] itself
    performs: the literal [0.0], [+=], [<=] and [>]. *)
Record arithmetic (F : Type) : Type := mkArithmetic {
  zero : F;
  add : F -> F -> F;
  leb : F -> F -> bool;
  ltb : F -> F -> bool }.
Arguments zero {F} _.
Arguments add {F} _ _ _.
Arguments leb {F} _ _ _.
Arguments ltb {F} _ _ _.

(** What [fillCartesianPolylines] reads of the corridor: the length, the
    position and the normal of the reference line, the deviation of the two
    boundaries, and [position + d * normal]. *)
Record view (F P V : Type) : Type := mkView {
  GetTotalLength : F;
  GetPositionAt : F -> P;
  GetNormalVectorAt : F -> V;
  leftBound_deviationAt : F -> F;
  rightBound_deviationAt : F -> F;
  displaced : P -> F -> V -> P }.
Arguments GetTotalLength {F P V} _.
Arguments GetPositionAt {F P V} _ _.
Arguments GetNormalVectorAt {F P V} _ _.
Arguments leftBound_deviationAt {F P V} _ _.
Arguments rightBound_deviationAt {F P V} _ _.
Arguments displaced {F P V} _ _ _ _.

Record Polylines (P : Type) : Type := mkPolylines {
  reference_line : list P;
  left_boundary : list P;
  right_boundary : list P }.
Arguments mkPolylines {P} _ _ _.
Arguments reference_line {P} _.
Arguments left_boundary {P} _.
Arguments right_boundary {P} _.

Section Loop.

Context {F P V : Type}.
Variable A : arithmetic F.
Variable K : view F P V.

Definition clear (out : Polylines P) : Polylines P := mkPolylines [] [] [].

Definition emplace_sample (query_l : F) (out : Polylines P) : Polylines P :=
  let position := GetPositionAt K query_l in
  let normal := GetNormalVectorAt K query_l in
  let d_left := leftBound_deviationAt K query_l in
  let d_right := rightBound_deviationAt K query_l in
  mkPolylines
    (reference_line out ++ [position])
    (left_boundary out ++ [displaced K position d_left normal])
    (right_boundary out ++ [displaced K position d_right normal]).

(** [while (query_l <= max_length) { ...; query_l += delta_l; }], one unit
    of fuel per evaluation of the loop condition. *)
Fixpoint sampling_loop (fuel : nat) (delta_l max_length query_l : F)
    (out : Polylines P) : option (F * Polylines P) :=
  match fuel with
  | O => None
  | S fuel' =>
      if leb A query_l max_length
      then sampling_loop fuel' delta_l max_length (add A query_l delta_l)
             (emplace_sample query_l out)
      else Some (query_l, out)
  end.

Definition fillCartesianPolylines (fuel : nat) (delta_l : F) (out : Polylines P)
    : option (Polylines P) :=
  let out := clear out in
  let query_l := zero A in
  let max_length := GetTotalLength K in
  match sampling_loop fuel delta_l max_length query_l out with
  | None => None
  | Some (query_l, out) =>
      if ltb A max_length query_l
      then Some (emplace_sample max_length out)
      else Some out
  end.

(** The value of [query_l] after [n] rounds, and the values it had at the
    start of each of them. *)
Fixpoint sum_after (n : nat) (delta_l query_l : F) : F :=
  match n with
  | O => query_l
  | S n' => sum_after n' delta_l (add A query_l delta_l)
  end.

Fixpoint visited (n : nat) (delta_l query_l : F) : list F :=
  match n with
  | O => []
  | S n' => query_l :: visited n' delta_l (add A query_l delta_l)
  end.

Definition emplace_samples (arc_lengths : list F) (out : Polylines P) : Polylines P :=
  fold_left (fun out query_l => emplace_sample query_l out) arc_lengths out.

End Loop.

(** The facts about order and addition that the statements on the sampling
    use.  They hold of exact numbers and of the doubles: a sum of a number
    that is not negative and a positive one is not negative (in particular
    not NaN), and two numbers that are not negative are comparable. *)
Record lawful {F : Type} (A : arithmetic F) : Prop := mkLawful {
  zero_le_zero : leb A (zero A) (zero A) = true;
  add_nonneg : forall a s : F,
      leb A (zero A) a = true -> ltb A (zero A) s = true ->
      leb A (zero A) (add A a s) = true;
  not_le_gt : forall a b : F,
      leb A (zero A) a = true -> leb A (zero A) b = true ->
      leb A a b = false -> ltb A b a = true;
  le_refl : forall a : F, leb A (zero A) a = true -> leb A a a = true;
  lt_not_le : forall a b : F, ltb A a b = true -> leb A b a = false }.

End Sampling.

(** The exact arithmetic of the rest of the development, and the corridor
    as the sampling sees it. *)
Definition exact : Sampling.arithmetic RealType :=
  Sampling.mkArithmetic RealType 0 Qcplus Qcleb Qcltb.

Definition view_of (c : Corridor.t)
    : Sampling.view RealType CartesianPoint2D CartesianVector2D :=
  Sampling.mkView RealType CartesianPoint2D CartesianVector2D
    (CubicSpline.GetTotalLength (Corridor.referenceLine_ c))
    (CubicSpline.GetPositionAt (Corridor.referenceLine_ c))
    (CubicSpline.GetNormalVectorAt (Corridor.referenceLine_ c))
    (FrenetPolyline.deviationAt (Corridor.leftBound_ c))
    (FrenetPolyline.deviationAt (Corridor.rightBound_ c))
    (fun position d normal => translate position (scale d normal)).

Definition polylines_of (out : Corridor.Polylines) : Sampling.Polylines CartesianPoint2D :=
  Sampling.mkPolylines (Corridor.reference_line out) (Corridor.left_boundary out)
    (Corridor.right_boundary out).

(** The arithmetic of the sources: binary64 with round to nearest even. *)
Definition double : Sampling.arithmetic float :=
  Sampling.mkArithmetic float 0%float PrimFloat.add PrimFloat.leb PrimFloat.ltb.

(** A corridor on doubles: the reference line runs east from the origin for
    [total_length], so the first coordinate of a reference point is its
    arc-length; the boundaries lie 2 to the left and 1.5 to the right. *)
Definition double_line (total_length : float)
    : Sampling.view float (float * float) (float * float) :=
  Sampling.mkView float (float * float)%type (float * float)%type
    total_length
    (fun s => (s, 0%float))
    (fun _ => (0%float, 1%float))
    (fun _ => 2%float)
    (fun _ => (-1.5)%float)
    (fun position d normal =>
       (PrimFloat.add (fst position) (PrimFloat.mul d (fst normal)),
        PrimFloat.add (snd position) (PrimFloat.mul d (snd normal)))).

(** The doubles that the literals 0.7 and 5.6 denote, and 2^53. *)
Definition double_0_7 : float := 0x1.6666666666666p-1%float.
Definition double_5_6 : float := 0x1.6666666666666p+2%float.
Definition double_2_53 : float := 9007199254740992%float.

(** A number of the binary64 specification that is not less than zero, and
    one that is greater. *)
Definition sf_nonneg (x : spec_float) : bool :=
  match x with
  | S754_nan => false
  | S754_zero _ => true
  | S754_infinity s => negb s
  | S754_finite s _ _ => negb s
  end.

Definition sf_pos (x : spec_float) : bool :=
  match x with
  | S754_infinity s => negb s
  | S754_finite s _ _ => negb s
  | _ => false
  end.

(** ** Vocabulary of the further statements *)

(** Where one call of the resolution goes: the two tests of
    [getFrenetPositionWithFrame], in their order, at the entry that [iter]
    designates. *)
Inductive move : Type := ToPrevious | ToNext | Stay.

Definition move_at (default_arc_length_hint : RealType)
    (corridor_map_ : CorridorSequence.CorridorSequenceMap)
    (position : CartesianPoint2D) (iter : nat) : option move :=
  match nth_error corridor_map_ iter with
  | None => None
  | Some (_, second) =>
      let position_with_frame :=
        CorridorSequence.project default_arc_length_hint second position in
      if Qcltb (pos_l (FrenetPositionWithFrame.position position_with_frame)) 0
         && negb (iter =? 0)%nat
      then Some ToPrevious
      else if Qcltb (Corridor.lengthReferenceLine second)
                    (pos_l (FrenetPositionWithFrame.position position_with_frame))
              && negb (S iter =? length corridor_map_)%nat
      then Some ToNext
      else Some Stay
  end.

(** No two adjacent corridors send the search to each other. *)
Definition alternation_free (default_arc_length_hint : RealType)
    (corridor_map_ : CorridorSequence.CorridorSequenceMap)
    (position : CartesianPoint2D) : Prop :=
  forall i : nat,
    ~ (move_at default_arc_length_hint corridor_map_ position i = Some ToNext
       /\ move_at default_arc_length_hint corridor_map_ position (S i) = Some ToPrevious).

(** * Properties *)

(** ** Order and arithmetic on [RealType] *)

Lemma Qcltb_true (a b : RealType) : Qcltb a b = true <-> a < b.
Proof.
  unfold Qcltb. rewrite Qclt_alt. destruct (a ?= b); split; congruence.
Qed.

Lemma Qcltb_false (a b : RealType) : Qcltb a b = false <-> b <= a.
Proof.
  split; intro H.
  - apply Qcnot_lt_le. intro Hlt. apply Qcltb_true in Hlt. congruence.
  - destruct (Qcltb a b) eqn:E; [|reflexivity].
    apply Qcltb_true in E. exfalso. exact (Qcle_not_lt _ _ H E).
Qed.

Lemma Qcleb_true (a b : RealType) : Qcleb a b = true <-> a <= b.
Proof.
  unfold Qcleb, Qcle. rewrite Qle_alt. unfold Qccompare.
  destruct (this a ?= this b)%Q; split; congruence.
Qed.

Lemma Qcleb_false (a b : RealType) : Qcleb a b = false <-> b < a.
Proof.
  split; intro H.
  - apply Qcnot_le_lt. intro Hle. apply Qcleb_true in Hle. congruence.
  - destruct (Qcleb a b) eqn:E; [|reflexivity].
    apply Qcleb_true in E. exfalso. exact (Qcle_not_lt _ _ E H).
Qed.

(** Linear goals on [Qc] are sent to [Q], where [lra] decides them. *)
Ltac qc_lra :=
  unfold Qcle, Qclt, Qcminus, Qcopp, Qcplus, Qcmult, Q2Qc in *; cbn [this] in *;
  repeat (setoid_rewrite Qred_correct);
  repeat match goal with H : _ |- _ => setoid_rewrite Qred_correct in H end;
  lra.

(** ** The lateral-offset profile *)

Lemma app_cons_snoc {A : Type} (pre : list A) (a : A) (rest : list A) :
  pre ++ a :: rest = (pre ++ [a]) ++ rest.
Proof. rewrite <- app_assoc. reflexivity. Qed.

Lemma SetPoint_at (pre rest : FrenetPolyline.t) (old node : RealType * RealType)
    (index : nat) :
  length pre = index ->
  FrenetPolyline.SetPoint (pre ++ old :: rest) index node = pre ++ node :: rest.
Proof.
  intro H. subst index.
  induction pre as [|n0 pre IH]; simpl; [reflexivity|]. now rewrite IH.
Qed.

(** A profile with at least one node whose nodes all carry the value [v]
    reads [v] at every arc-length. *)
Lemma deviationAt_constant (p : FrenetPolyline.t) (v arc_length : RealType) :
  p <> [] -> Forall (fun node => snd node = v) p ->
  FrenetPolyline.deviationAt p arc_length = v.
Proof.
  induction p as [|[l0 d0] rest IH]; intros Hne Hall; [congruence|].
  apply Forall_cons_iff in Hall. destruct Hall as [Hd0 Hrest].
  cbn [snd] in Hd0. subst d0.
  destruct rest as [|[l1 d1] rest']; [reflexivity|].
  pose proof Hrest as Hd1. apply Forall_cons_iff in Hd1. destruct Hd1 as [Hd1 _].
  cbn [snd] in Hd1. subst d1.
  change (FrenetPolyline.deviationAt ((l0, v) :: (l1, v) :: rest') arc_length)
    with (if Qcltb arc_length l0 then v
          else if Qcltb arc_length l1
               then v + (v - v) * ((arc_length - l0) / (l1 - l0))
               else FrenetPolyline.deviationAt ((l1, v) :: rest') arc_length).
  destruct (Qcltb arc_length l0); [reflexivity|].
  destruct (Qcltb arc_length l1).
  - ring.
  - apply IH; [discriminate|assumption].
Qed.

(** ** Corridor: construction with fixed boundary distances *)

(** The loop of the fixed-width constructors, started at node [i] with
    [todo] nodes still to write, replaces exactly those nodes. *)
Lemma fixed_bounds_loop_spec (referenceLine : CubicSpline.t) (dl dr : RealType) :
  forall (todo i : nat) (preL preR restL restR : FrenetPolyline.t),
    length preL = i -> length preR = i ->
    length restL = todo -> length restR = todo ->
    Corridor.fixed_bounds_loop todo i referenceLine dl dr
      (preL ++ restL) (preR ++ restR)
    = (preL ++ map (fun k => (CubicSpline.GetArclengthAtIndex referenceLine k, dl))
                 (seq i todo),
       preR ++ map (fun k => (CubicSpline.GetArclengthAtIndex referenceLine k, - dr))
                 (seq i todo)).
Proof.
  induction todo as [|todo IH]; intros i preL preR restL restR HpL HpR HL HR.
  - destruct restL; [|discriminate]. destruct restR; [|discriminate]. reflexivity.
  - destruct restL as [|oldL restL]; [discriminate|].
    destruct restR as [|oldR restR]; [discriminate|].
    cbn [Corridor.fixed_bounds_loop].
    rewrite (SetPoint_at preL) by assumption.
    rewrite (SetPoint_at preR) by assumption.
    rewrite (app_cons_snoc preL), (app_cons_snoc preR).
    rewrite (IH (S i)).
    + rewrite <- (app_cons_snoc preL), <- (app_cons_snoc preR). reflexivity.
    + rewrite length_app. simpl. lia.
    + rewrite length_app. simpl. lia.
    + simpl in HL. lia.
    + simpl in HR. lia.
Qed.

Lemma with_fixed_bounds_profiles (referenceLine : CubicSpline.t) (dl dr : RealType) :
  Corridor.leftBound_ (Corridor.with_fixed_bounds referenceLine dl dr)
  = map (fun i => (CubicSpline.GetArclengthAtIndex referenceLine i, dl))
      (seq 0 (CubicSpline.GetSize referenceLine))
  /\ Corridor.rightBound_ (Corridor.with_fixed_bounds referenceLine dl dr)
  = map (fun i => (CubicSpline.GetArclengthAtIndex referenceLine i, - dr))
      (seq 0 (CubicSpline.GetSize referenceLine)).
Proof.
  unfold Corridor.with_fixed_bounds. cbn [Corridor.leftBound_ Corridor.rightBound_].
  pose proof (fixed_bounds_loop_spec referenceLine dl dr
                (CubicSpline.GetSize referenceLine) 0 [] []
                (FrenetPolyline.make (CubicSpline.GetSize referenceLine))
                (FrenetPolyline.make (CubicSpline.GetSize referenceLine))
                eq_refl eq_refl) as H.
  cbn [app] in H. rewrite H.
  - split; reflexivity.
  - apply repeat_length.
  - apply repeat_length.
Qed.

(** With at least one node on the reference line, a fixed-width corridor
    reads its two construction distances at every arc-length. *)
Lemma with_fixed_bounds_distances (referenceLine : CubicSpline.t)
    (dl dr arc_length : RealType) :
  (1 <= CubicSpline.GetSize referenceLine)%nat ->
  Corridor.signedDistancesAt (Corridor.with_fixed_bounds referenceLine dl dr) arc_length
  = (dl, - dr).
Proof.
  intro Hsize. unfold Corridor.signedDistancesAt.
  destruct (with_fixed_bounds_profiles referenceLine dl dr) as [HL HR].
  rewrite HL, HR.
  destruct (CubicSpline.GetSize referenceLine) as [|n]; [lia|].
  f_equal; apply deviationAt_constant;
    try (cbn [seq map]; discriminate);
    apply Forall_forall; intros node Hin; apply in_map_iff in Hin;
    destruct Hin as [i [Hi _]]; subst node; reflexivity.
Qed.

(** C7: for every corridor and every arc-length, [widthAt] is the left
    component of [signedDistancesAt] plus the absolute value of its right
    component. *)
Theorem widthAt_signedDistancesAt (c : Corridor.t) (arc_length : RealType) :
  Corridor.widthAt c arc_length
  = fst (Corridor.signedDistancesAt c arc_length)
    + Qcabs (snd (Corridor.signedDistancesAt c arc_length)).
Proof. reflexivity. Qed.

(** C3: a corridor built by the fixed-width constructor with left distance
    2.0 and right distance 1.5, over a reference line with at least one
    node, has [signedDistancesAt] equal to (2.0, -1.5) and [widthAt] equal to
    3.5 at every arc-length. *)
Theorem fixed_width_2_15 (CubicSpline_of_points : IdType -> CartesianPoints2D -> CubicSpline.t)
    (id : IdType) (reference_line_pts : CartesianPoints2D) (arc_length : RealType) :
  (1 <= CubicSpline.GetSize (CubicSpline_of_points id reference_line_pts))%nat ->
  Corridor.signedDistancesAt
    (Corridor.Corridor_fixed CubicSpline_of_points id reference_line_pts
       (real 2) (Q2Qc (3 # 2))) arc_length
  = (real 2, Q2Qc (- 3 # 2))
  /\ Corridor.widthAt
       (Corridor.Corridor_fixed CubicSpline_of_points id reference_line_pts
          (real 2) (Q2Qc (3 # 2))) arc_length
     = Q2Qc (7 # 2).
Proof.
  intro Hsize. unfold Corridor.Corridor_fixed.
  change (Corridor.widthAt ?c ?s)
    with (fst (Corridor.signedDistancesAt c s) + Qcabs (snd (Corridor.signedDistancesAt c s))).
  rewrite with_fixed_bounds_distances by assumption.
  cbn [fst snd]. split.
  - f_equal; apply Qc_is_canon; reflexivity.
  - apply Qc_is_canon. reflexivity.
Qed.

Lemma fixed_width_2_15_witness :
  (1 <= CubicSpline.GetSize line_A)%nat
  /\ Corridor.widthAt
       (Corridor.Corridor_fixed (fun _ _ => line_A) 7%Z points_A (real 2) (Q2Qc (3 # 2)))
       (real 4)
     = Q2Qc (7 # 2).
Proof.
  split; [simpl; lia|].
  apply (fixed_width_2_15 (fun _ _ => line_A) 7%Z points_A (real 4)).
  simpl; lia.
Defined.

(** ** CorridorSequence: total length *)

Lemma rev_last (corridor_map_ : CorridorSequence.CorridorSequenceMap)
    (dflt : RealType * Corridor.t) :
  corridor_map_ <> [] ->
  rev corridor_map_ = last corridor_map_ dflt :: rev (removelast corridor_map_).
Proof.
  intro Hne.
  rewrite (app_removelast_last dflt Hne) at 1.
  rewrite rev_app_distr. reflexivity.
Qed.

(** In a chain that starts at [offset], the end of the last corridor lies at
    [offset] plus the sum of the lengths. *)
Lemma chained_from_end (corridor_map_ : CorridorSequence.CorridorSequenceMap)
    (dflt : RealType * Corridor.t) :
  forall offset : RealType,
    corridor_map_ <> [] -> chained_from offset corridor_map_ = true ->
    fst (last corridor_map_ dflt)
    + Corridor.lengthReferenceLine (snd (last corridor_map_ dflt))
    = offset + sum_of_lengths corridor_map_.
Proof.
  induction corridor_map_ as [|[first second] rest IH]; intros offset Hne Hch;
    [congruence|].
  cbn [chained_from] in Hch. apply andb_true_iff in Hch. destruct Hch as [Hk Hrest].
  apply Qc_eq_bool_correct in Hk. subst offset.
  destruct rest as [|entry rest'].
  - cbn. ring.
  - change (last ((first, second) :: entry :: rest') dflt)
      with (last (entry :: rest') dflt).
    rewrite (IH (first + Corridor.lengthReferenceLine second)) by (congruence || assumption).
    unfold sum_of_lengths. cbn [fold_right snd]. ring.
Qed.

(** C5: for a non-empty sequence [totalLength] is the key of the last entry
    plus the reference-line length of the last corridor; when the sequence is
    chained (first key 0, every next key the previous key plus the previous
    corridor's length) this is the sum of the reference-line lengths of all
    its corridors. *)
Theorem totalLength_last_entry (corridor_map_ : CorridorSequence.CorridorSequenceMap)
    (dflt : RealType * Corridor.t) :
  corridor_map_ <> [] ->
  CorridorSequence.totalLength corridor_map_
  = Some (fst (last corridor_map_ dflt)
          + Corridor.lengthReferenceLine (snd (last corridor_map_ dflt)))
  /\ (chained corridor_map_ = true ->
      CorridorSequence.totalLength corridor_map_ = Some (sum_of_lengths corridor_map_)).
Proof.
  intro Hne.
  assert (Hlast : CorridorSequence.totalLength corridor_map_
                  = Some (fst (last corridor_map_ dflt)
                          + Corridor.lengthReferenceLine (snd (last corridor_map_ dflt)))).
  { unfold CorridorSequence.totalLength. rewrite (rev_last corridor_map_ dflt Hne).
    destruct (last corridor_map_ dflt). reflexivity. }
  split; [exact Hlast|].
  intro Hch. rewrite Hlast.
  rewrite (chained_from_end corridor_map_ dflt 0 Hne Hch).
  apply f_equal. ring.
Qed.

Lemma totalLength_last_entry_witness :
  two_corridors <> []
  /\ chained two_corridors = true
  /\ CorridorSequence.totalLength two_corridors = Some (sum_of_lengths two_corridors).
Proof.
  split; [discriminate|]. split; [vm_compute; reflexivity|].
  apply (totalLength_last_entry two_corridors (0, short_corridor)).
  - discriminate.
  - vm_compute. reflexivity.
Defined.

(** ** CorridorSequence: lookup by global arc-length *)

Lemma ordered_tail (entry : RealType * Corridor.t)
    (rest : CorridorSequence.CorridorSequenceMap) :
  CorridorSequence.ordered (entry :: rest) = true -> CorridorSequence.ordered rest = true.
Proof.
  unfold CorridorSequence.ordered. destruct rest as [|e rest']; [reflexivity|].
  cbn [map CorridorSequence.ascending]. intro H. apply andb_true_iff in H. apply H.
Qed.

(** In an ordered map every entry after the first has a greater key. *)
Lemma ordered_head_least (rest : CorridorSequence.CorridorSequenceMap) :
  forall entry : RealType * Corridor.t,
    CorridorSequence.ordered (entry :: rest) = true ->
    forall e, In e rest -> fst entry < fst e.
Proof.
  induction rest as [|e0 rest IH]; intros entry Hord e Hin; [contradiction|].
  pose proof (ordered_tail _ _ Hord) as Htail.
  unfold CorridorSequence.ordered in Hord. cbn [map CorridorSequence.ascending] in Hord.
  apply andb_true_iff in Hord. destruct Hord as [Hlt _]. apply Qcltb_true in Hlt.
  destruct Hin as [->|Hin]; [exact Hlt|].
  eapply Qclt_trans; [exact Hlt|]. exact (IH e0 Htail e Hin).
Qed.

(** In an ordered map the lookup finds the entry with the greatest key that
    does not exceed the arc-length. *)
Lemma entry_at_greatest (corridor_map_ : CorridorSequence.CorridorSequenceMap)
    (arc_length : RealType) :
  CorridorSequence.ordered corridor_map_ = true ->
  forall (first : RealType) (second : Corridor.t),
    In (first, second) corridor_map_ -> first <= arc_length ->
    (forall e, In e corridor_map_ -> fst e <= arc_length -> fst e <= first) ->
    CorridorSequence.entry_at corridor_map_ arc_length = Some (first, second).
Proof.
  unfold CorridorSequence.entry_at, CorridorSequence.get.
  induction corridor_map_ as [|[k c] rest IH]; intros Hord first second Hin Hle Hmax;
    [contradiction|].
  pose proof (ordered_head_least rest (k, c) Hord) as Hleast. cbn [fst] in Hleast.
  pose proof (ordered_tail _ _ Hord) as Htail.
  cbn [CorridorSequence.upper_bound].
  destruct (Qcltb arc_length k) eqn:Ek.
  - exfalso. apply Qcltb_true in Ek.
    destruct Hin as [Heq|Hin].
    + inversion Heq; subst. exact (Qcle_not_lt _ _ Hle Ek).
    + specialize (Hleast _ Hin). cbn [fst] in Hleast.
      apply (Qcle_not_lt _ _ Hle). eapply Qclt_trans; eassumption.
  - apply Qcltb_false in Ek.
    destruct rest as [|[k1 c1] rest'].
    + destruct Hin as [Heq|[]]. inversion Heq; subst. reflexivity.
    + destruct (Qcltb arc_length k1) eqn:Ek1.
      * (* no entry of the rest starts at or before [arc_length] *)
        cbn [CorridorSequence.upper_bound]. rewrite Ek1. cbn [nth_error].
        apply Qcltb_true in Ek1.
        destruct Hin as [Heq|Hin]; [inversion Heq; subst; reflexivity|].
        exfalso. apply (Qcle_not_lt _ _ Hle).
        destruct Hin as [Heq|Hin]; [inversion Heq; subst; exact Ek1|].
        pose proof (ordered_head_least rest' (k1, c1) Htail _ Hin) as H1.
        cbn [fst] in H1. eapply Qclt_trans; eassumption.
      * (* the entry sought lies in the rest *)
        apply Qcltb_false in Ek1.
        assert (Hin' : In (first, second) ((k1, c1) :: rest')).
        { destruct Hin as [Heq|Hin]; [|exact Hin].
          exfalso. inversion Heq; subst.
          pose proof (Hmax (k1, c1) (or_intror (or_introl eq_refl)) Ek1) as H1.
          cbn [fst] in H1.
          apply (Qcle_not_lt _ _ H1). apply (Hleast (k1, c1)). left. reflexivity. }
        specialize (IH Htail first second Hin' Hle
                      (fun e He => Hmax e (or_intror He))).
        destruct (CorridorSequence.upper_bound ((k1, c1) :: rest') arc_length)
          as [|iter]; [discriminate|].
        exact IH.
Qed.

(** C6: in a non-empty sequence (an ordered map), for a global arc-length
    [arc_length], each of [signedDistancesAt], [widthAt], [centerOffsetAt]
    and [curvatureAt] returns the value of the corridor query of the same
    name on the corridor whose entry has the greatest key not exceeding
    [arc_length], at the local arc-length [arc_length] minus that key. *)
Theorem sequence_queries_delegate (corridor_map_ : CorridorSequence.CorridorSequenceMap)
    (arc_length first : RealType) (second : Corridor.t) :
  CorridorSequence.ordered corridor_map_ = true ->
  In (first, second) corridor_map_ -> first <= arc_length ->
  (forall e, In e corridor_map_ -> fst e <= arc_length -> fst e <= first) ->
  CorridorSequence.signedDistancesAt corridor_map_ arc_length
  = Some (Corridor.signedDistancesAt second (arc_length - first))
  /\ CorridorSequence.widthAt corridor_map_ arc_length
     = Some (Corridor.widthAt second (arc_length - first))
  /\ CorridorSequence.centerOffsetAt corridor_map_ arc_length
     = Some (Corridor.centerOffset second (arc_length - first))
  /\ CorridorSequence.curvatureAt corridor_map_ arc_length
     = Some (Corridor.curvatureAt second (arc_length - first)).
Proof.
  intros Hord Hin Hle Hmax.
  pose proof (entry_at_greatest corridor_map_ arc_length Hord first second Hin Hle Hmax)
    as Hentry.
  unfold CorridorSequence.signedDistancesAt, CorridorSequence.widthAt,
    CorridorSequence.centerOffsetAt, CorridorSequence.curvatureAt.
  rewrite Hentry. repeat split.
Qed.

Lemma sequence_queries_delegate_witness :
  CorridorSequence.ordered two_corridors = true
  /\ CorridorSequence.widthAt two_corridors (real 12)
     = Some (Corridor.widthAt corridor_B (real 12 - real 10)).
Proof.
  split; [vm_compute; reflexivity|].
  apply (sequence_queries_delegate two_corridors (real 12) (real 10) corridor_B).
  - vm_compute. reflexivity.
  - right. left. reflexivity.
  - apply Qcleb_true. vm_compute. reflexivity.
  - intros e [<-|[<-|[]]]; intros _; apply Qcleb_true; vm_compute; reflexivity.
Defined.

(** ** CorridorSequence: resolution across corridors *)

Section ResolutionFacts.

Variable default_arc_length_hint : RealType.
Variable corridor_map_ : CorridorSequence.CorridorSequenceMap.
Variable position : CartesianPoint2D.

Let run := fun fuel =>
  CorridorSequence.getFrenetPositionWithFrame_iter default_arc_length_hint fuel
    corridor_map_ position.
Let local := s_local default_arc_length_hint position.

(** The two tests of the function, read as propositions. *)
Lemma test_previous (c : Corridor.t) (iter : nat) :
  Qcltb (local c) 0 && negb (iter =? 0)%nat = true
  <-> local c < 0 /\ has_previous iter.
Proof.
  unfold has_previous.
  rewrite andb_true_iff, Qcltb_true, negb_true_iff, Nat.eqb_neq. intuition lia.
Qed.

Lemma test_next (c : Corridor.t) (iter : nat) :
  (iter < length corridor_map_)%nat ->
  Qcltb (Corridor.lengthReferenceLine c) (local c)
  && negb (S iter =? length corridor_map_)%nat = true
  <-> Corridor.lengthReferenceLine c < local c /\ has_next corridor_map_ iter.
Proof.
  intro Hvalid. unfold has_next.
  rewrite andb_true_iff, Qcltb_true, negb_true_iff, Nat.eqb_neq. intuition lia.
Qed.

(** One call, opened at an iterator that designates an entry. *)
Lemma run_step (fuel iter : nat) (first : RealType) (second : Corridor.t) :
  nth_error corridor_map_ iter = Some (first, second) ->
  run (S fuel) iter
  = if Qcltb (local second) 0 && negb (iter =? 0)%nat
    then run fuel (pred iter)
    else if Qcltb (Corridor.lengthReferenceLine second) (local second)
            && negb (S iter =? length corridor_map_)%nat
         then run fuel (S iter)
         else Returned (CorridorSequence.project default_arc_length_hint second position).
Proof.
  intro Hentry. unfold run. cbn [CorridorSequence.getFrenetPositionWithFrame_iter].
  rewrite Hentry. reflexivity.
Qed.

Lemma run_sound :
  forall (fuel iter : nat) (r : FrenetPositionWithFrame.t),
    run fuel iter = Returned r ->
    Resolves default_arc_length_hint corridor_map_ position iter r.
Proof.
  induction fuel as [|fuel IH]; intros iter r Hrun; [discriminate|].
  destruct (nth_error corridor_map_ iter) as [[first second]|] eqn:Hentry.
  - assert (Hvalid : (iter < length corridor_map_)%nat)
      by (apply nth_error_Some; congruence).
    rewrite (run_step fuel iter first second Hentry) in Hrun.
    destruct (Qcltb (local second) 0 && negb (iter =? 0)%nat) eqn:Eprev.
    + apply test_previous in Eprev. destruct Eprev as [Hneg Hprev].
      eapply Resolves_previous; eauto.
    + assert (Hnoprev : ~ (local second < 0 /\ has_previous iter)).
      { intro H. apply test_previous in H. congruence. }
      destruct (Qcltb (Corridor.lengthReferenceLine second) (local second)
                && negb (S iter =? length corridor_map_)%nat) eqn:Enext.
      * apply (test_next second iter Hvalid) in Enext. destruct Enext as [Hbeyond Hnext].
        eapply Resolves_next; eauto.
      * injection Hrun as <-. eapply Resolves_here; eauto.
        intro H. apply (test_next second iter Hvalid) in H. congruence.
  - unfold run in Hrun. cbn [CorridorSequence.getFrenetPositionWithFrame_iter] in Hrun.
    rewrite Hentry in Hrun. discriminate.
Qed.

Lemma run_complete :
  forall (iter : nat) (r : FrenetPositionWithFrame.t),
    Resolves default_arc_length_hint corridor_map_ position iter r ->
    exists fuel, run fuel iter = Returned r.
Proof.
  intros iter r H.
  induction H as [iter first second r Hentry Hneg Hprev _ [fuel IH]
                 |iter first second r Hentry Hnoprev Hbeyond Hnext _ [fuel IH]
                 |iter first second Hentry Hnoprev Hnonext].
  - exists (S fuel). rewrite (run_step fuel iter first second Hentry).
    replace (Qcltb (local second) 0 && negb (iter =? 0)%nat) with true
      by (symmetry; apply test_previous; split; assumption).
    exact IH.
  - assert (Hvalid : (iter < length corridor_map_)%nat)
      by (apply nth_error_Some; congruence).
    exists (S fuel). rewrite (run_step fuel iter first second Hentry).
    destruct (Qcltb (local second) 0 && negb (iter =? 0)%nat) eqn:Eprev;
      [apply test_previous in Eprev; contradiction|].
    replace (Qcltb (Corridor.lengthReferenceLine second) (local second)
             && negb (S iter =? length corridor_map_)%nat) with true
      by (symmetry; apply (test_next second iter Hvalid); split; assumption).
    exact IH.
  - assert (Hvalid : (iter < length corridor_map_)%nat)
      by (apply nth_error_Some; congruence).
    exists 1%nat. rewrite (run_step 0 iter first second Hentry).
    destruct (Qcltb (local second) 0 && negb (iter =? 0)%nat) eqn:Eprev;
      [apply test_previous in Eprev; contradiction|].
    destruct (Qcltb (Corridor.lengthReferenceLine second) (local second)
              && negb (S iter =? length corridor_map_)%nat) eqn:Enext;
      [apply (test_next second iter Hvalid) in Enext; contradiction|].
    reflexivity.
Qed.

(** A value, once returned, is returned with any larger fuel. *)
Lemma run_more_fuel :
  forall (fuel fuel' iter : nat) (r : FrenetPositionWithFrame.t),
    run fuel iter = Returned r -> (fuel <= fuel')%nat -> run fuel' iter = Returned r.
Proof.
  induction fuel as [|fuel IH]; intros fuel' iter r Hrun Hle; [discriminate|].
  destruct fuel' as [|fuel']; [lia|].
  destruct (nth_error corridor_map_ iter) as [[first second]|] eqn:Hentry.
  - rewrite (run_step fuel iter first second Hentry) in Hrun.
    rewrite (run_step fuel' iter first second Hentry).
    destruct (Qcltb (local second) 0 && negb (iter =? 0)%nat).
    + apply IH; [assumption|lia].
    + destruct (Qcltb (Corridor.lengthReferenceLine second) (local second)
                && negb (S iter =? length corridor_map_)%nat).
      * apply IH; [assumption|lia].
      * assumption.
  - unfold run in Hrun. cbn [CorridorSequence.getFrenetPositionWithFrame_iter] in Hrun.
    rewrite Hentry in Hrun. discriminate.
Qed.

(** Two adjacent corridors between which the search alternates: the point
    projects beyond the end of the first and before the start of the second.
    From either of them the call returns with no amount of fuel. *)
Lemma run_alternates (iter : nat) (first first' : RealType) (second second' : Corridor.t) :
  nth_error corridor_map_ iter = Some (first, second) ->
  nth_error corridor_map_ (S iter) = Some (first', second') ->
  ~ (local second < 0 /\ has_previous iter) ->
  Corridor.lengthReferenceLine second < local second ->
  local second' < 0 ->
  forall fuel : nat, run fuel iter = OutOfFuel /\ run fuel (S iter) = OutOfFuel.
Proof.
  intros Hentry Hentry' Hnoprev Hbeyond Hbefore.
  assert (Hvalid : (iter < length corridor_map_)%nat)
    by (apply nth_error_Some; congruence).
  assert (Hnext : has_next corridor_map_ iter)
    by (apply nth_error_Some; congruence).
  induction fuel as [|fuel [IH IH']]; [split; reflexivity|]. split.
  - rewrite (run_step fuel iter first second Hentry).
    destruct (Qcltb (local second) 0 && negb (iter =? 0)%nat) eqn:Eprev;
      [apply test_previous in Eprev; contradiction|].
    replace (Qcltb (Corridor.lengthReferenceLine second) (local second)
             && negb (S iter =? length corridor_map_)%nat) with true
      by (symmetry; apply (test_next second iter Hvalid); split; assumption).
    exact IH'.
  - rewrite (run_step fuel (S iter) first' second' Hentry').
    replace (Qcltb (local second') 0 && negb (S iter =? 0)%nat) with true
      by (symmetry; apply test_previous; split; [assumption|unfold has_previous; lia]).
    exact IH.
Qed.

(** C1: [getFrenetPositionWithFrame] returns a result exactly when the
    resolution algorithm, started in the corridor that [get] selects for the
    hint, arrives at that result: a negative local arc-length with a previous
    corridor continues in the previous corridor, otherwise a local arc-length
    beyond the reference length with a next corridor continues in the next
    one, otherwise the projection into the current corridor is returned. *)
Theorem getFrenetPositionWithFrame_resolves
    (start_arc_length : RealType) (r : FrenetPositionWithFrame.t) :
  (exists fuel,
     CorridorSequence.getFrenetPositionWithFrame default_arc_length_hint fuel
       corridor_map_ position start_arc_length = Returned r)
  <-> (exists iter,
         CorridorSequence.get corridor_map_ start_arc_length = Some iter
         /\ Resolves default_arc_length_hint corridor_map_ position iter r).
Proof.
  unfold CorridorSequence.getFrenetPositionWithFrame. split.
  - intros [fuel Hrun].
    destruct (CorridorSequence.get corridor_map_ start_arc_length) as [iter|];
      [|discriminate].
    exists iter. split; [reflexivity|]. exact (run_sound fuel iter r Hrun).
  - intros [iter [Hget Hres]]. rewrite Hget. exact (run_complete iter r Hres).
Qed.

(** C10: two starting hints for which [get] selects the same entry give the
    same result for the same point, whatever the fuel: the hint selects the
    starting corridor and reaches no projection. *)
Theorem hint_selects_start_only (fuel : nat) (hint1 hint2 : RealType) :
  CorridorSequence.get corridor_map_ hint1 = CorridorSequence.get corridor_map_ hint2 ->
  CorridorSequence.getFrenetPositionWithFrame default_arc_length_hint fuel
    corridor_map_ position hint1
  = CorridorSequence.getFrenetPositionWithFrame default_arc_length_hint fuel
      corridor_map_ position hint2.
Proof.
  intro Hsame. unfold CorridorSequence.getFrenetPositionWithFrame.
  rewrite Hsame. reflexivity.
Qed.

End ResolutionFacts.

Lemma hint_selects_start_only_witness :
  CorridorSequence.get two_corridors (real 1) = CorridorSequence.get two_corridors (real 9)
  /\ CorridorSequence.getFrenetPositionWithFrame 0 3 two_corridors point_in_B (real 1)
     = CorridorSequence.getFrenetPositionWithFrame 0 3 two_corridors point_in_B (real 9).
Proof.
  split; [vm_compute; reflexivity|].
  apply (hint_selects_start_only 0 two_corridors point_in_B 3 (real 1) (real 9)).
  vm_compute. reflexivity.
Defined.

(** The two-corridor scenario: with the hint 9 the search starts in A, where
    the point projects beyond the end, moves to B once, and returns the
    local arc-length 2 there. *)
Example resolves_forward_once (default_arc_length_hint : RealType) :
  exists r,
    CorridorSequence.getFrenetPositionWithFrame default_arc_length_hint 2
      two_corridors point_in_B (real 9) = Returned r
    /\ r = CorridorSequence.project default_arc_length_hint corridor_B point_in_B
    /\ this (pos_l (FrenetPositionWithFrame.position r)) = 2%Q.
Proof.
  eexists. split; [vm_compute; reflexivity|]. split; vm_compute; reflexivity.
Qed.

(** *** The search outside a corner *)

Lemma corner_never_returns (default_arc_length_hint : RealType) :
  forall fuel : nat,
    CorridorSequence.getFrenetPositionWithFrame_iter default_arc_length_hint fuel
      corner_map outside_corner 0%nat = OutOfFuel
    /\ CorridorSequence.getFrenetPositionWithFrame_iter default_arc_length_hint fuel
         corner_map outside_corner 1%nat = OutOfFuel.
Proof.
  apply (run_alternates default_arc_length_hint corner_map outside_corner 0
           0 (real 10) (fixed_corridor line_A) (fixed_corridor line_north)
           eq_refl eq_refl).
  - intros [_ Hprev]. unfold has_previous in Hprev. lia.
  - apply Qcltb_true. vm_compute. reflexivity.
  - apply Qcltb_true. vm_compute. reflexivity.
Qed.

(** C2: on the two corridors that meet at a right angle, for the point
    outside the corner and a hint in the first corridor, the call returns
    with no amount of fuel: the search goes from the first corridor to the
    second and back without end. *)
Theorem corner_search_diverges (default_arc_length_hint : RealType) (fuel : nat) :
  CorridorSequence.ordered corner_map = true
  /\ CorridorSequence.get corner_map (real 9) = Some 0%nat
  /\ CorridorSequence.getFrenetPositionWithFrame default_arc_length_hint fuel
       corner_map outside_corner (real 9) = OutOfFuel.
Proof.
  split; [vm_compute; reflexivity|]. split; [vm_compute; reflexivity|].
  unfold CorridorSequence.getFrenetPositionWithFrame.
  replace (CorridorSequence.get corner_map (real 9)) with (Some 0%nat)
    by (vm_compute; reflexivity).
  apply corner_never_returns.
Qed.

(** ** Corridor: sampling into polylines *)

Lemma of_nat_S (n : nat) : of_nat (S n) = of_nat n + 1.
Proof.
  unfold of_nat. apply Qc_is_canon. cbn [this Qcplus Q2Qc].
  rewrite !Qred_correct. rewrite Nat2Z.inj_succ. unfold Z.succ.
  rewrite inject_Z_plus. reflexivity.
Qed.

(** Every real number lies below some multiple of a positive step. *)
Lemma multiple_above (delta_l max_length : RealType) :
  0 < delta_l -> exists N : nat, max_length < of_nat N * delta_l.
Proof.
  intro Hpos.
  exists (Z.to_nat (Qfloor (this max_length / this delta_l) + 1)).
  assert (Hstep : (0 < this delta_l)%Q) by exact Hpos.
  set (x := (this max_length / this delta_l)%Q).
  assert (Hx : (x < inject_Z (Z.of_nat (Z.to_nat (Qfloor x + 1))))%Q).
  { eapply Qlt_le_trans; [apply Qlt_floor|].
    rewrite <- Zle_Qle. lia. }
  unfold Qclt, of_nat. cbn [this Qcmult Q2Qc]. rewrite !Qred_correct.
  assert (Hmax : (this max_length == x * this delta_l)%Q).
  { unfold x. field. intro H0. rewrite H0 in Hstep. exact (Qlt_irrefl _ Hstep). }
  rewrite Hmax. apply Qmult_lt_compat_r; assumption.
Qed.

Lemma emplace_samples_app (c : Corridor.t) (xs ys : list RealType)
    (out : Corridor.Polylines) :
  Corridor.emplace_samples c (xs ++ ys) out
  = Corridor.emplace_samples c ys (Corridor.emplace_samples c xs out).
Proof. unfold Corridor.emplace_samples. apply fold_left_app. Qed.

Lemma emplace_samples_sampled_at (c : Corridor.t) (ys : list RealType) :
  forall xs : list RealType,
    Corridor.emplace_samples c ys (Corridor.sampled_at c xs)
    = Corridor.sampled_at c (xs ++ ys).
Proof.
  induction ys as [|y ys IH]; intro xs.
  - rewrite app_nil_r. reflexivity.
  - change (Corridor.emplace_samples c (y :: ys) (Corridor.sampled_at c xs))
      with (Corridor.emplace_samples c ys
              (Corridor.emplace_sample c y (Corridor.sampled_at c xs))).
    replace (Corridor.emplace_sample c y (Corridor.sampled_at c xs))
      with (Corridor.sampled_at c (xs ++ [y]))
      by (unfold Corridor.sampled_at, Corridor.emplace_sample; cbn;
          rewrite !map_app; reflexivity).
    rewrite IH, <- app_assoc. reflexivity.
Qed.

Lemma visited_snoc (delta_l : RealType) :
  forall (n : nat) (query_l : RealType),
    Corridor.visited (S n) delta_l query_l
    = Corridor.visited n delta_l query_l ++ [query_l + of_nat n * delta_l].
Proof.
  induction n as [|n IH]; intro query_l.
  - cbn. f_equal. change (of_nat 0) with 0. ring.
  - change (Corridor.visited (S (S n)) delta_l query_l)
      with (query_l :: Corridor.visited (S n) delta_l (query_l + delta_l)).
    rewrite IH. cbn [Corridor.visited app]. do 3 f_equal.
    rewrite of_nat_S. ring.
Qed.

Section Sampling.

Variable c : Corridor.t.
Variable delta_l : RealType.
Let max_length := CubicSpline.GetTotalLength (Corridor.referenceLine_ c).

(** The run of the loop when it is known where it stops: [n] rounds, the
    arc-lengths of which do not exceed the length, and a first arc-length
    beyond it. *)
Lemma sampling_loop_run :
  forall (n fuel : nat) (query_l : RealType) (out : Corridor.Polylines),
    Forall (fun x => x <= max_length) (Corridor.visited n delta_l query_l) ->
    max_length < query_l + of_nat n * delta_l ->
    (n < fuel)%nat ->
    Corridor.sampling_loop fuel c delta_l max_length query_l out
    = Some (query_l + of_nat n * delta_l,
            Corridor.emplace_samples c (Corridor.visited n delta_l query_l) out).
Proof.
  induction n as [|n IH]; intros fuel query_l out Hin Hout Hfuel;
    (destruct fuel as [|fuel]; [lia|]); cbn [Corridor.sampling_loop].
  - assert (Hq : query_l + of_nat 0 * delta_l = query_l)
      by (change (of_nat 0) with 0; ring).
    rewrite Hq in Hout |- *.
    apply Qcleb_false in Hout. rewrite Hout. reflexivity.
  - cbn [Corridor.visited] in Hin. apply Forall_cons_iff in Hin.
    destruct Hin as [Hhere Hrest].
    apply Qcleb_true in Hhere. rewrite Hhere.
    assert (Hq : query_l + of_nat (S n) * delta_l
                 = query_l + delta_l + of_nat n * delta_l)
      by (rewrite of_nat_S; ring).
    rewrite Hq in Hout |- *.
    rewrite (IH fuel (query_l + delta_l)) by (assumption || lia).
    reflexivity.
Qed.

(** Below a multiple of the step that exceeds the length there is a first
    one that does, and the loop stops there. *)
Lemma sampling_loop_stops :
  forall (N : nat) (query_l : RealType),
    max_length < query_l + of_nat N * delta_l ->
    exists n : nat,
      (n <= N)%nat
      /\ Forall (fun x => x <= max_length) (Corridor.visited n delta_l query_l)
      /\ max_length < query_l + of_nat n * delta_l.
Proof.
  induction N as [|N IH]; intros query_l Hbound.
  - exists 0%nat. split; [lia|]. split; [constructor|assumption].
  - destruct (Qclt_le_dec max_length query_l) as [Hout|Hin].
    + exists 0%nat. split; [lia|]. split; [constructor|].
      replace (query_l + of_nat 0 * delta_l) with query_l
        by (change (of_nat 0) with 0; ring).
      assumption.
    + destruct (IH (query_l + delta_l)) as [n [Hn [Hall Hstop]]].
      { replace (query_l + delta_l + of_nat N * delta_l)
          with (query_l + of_nat (S N) * delta_l)
          by (rewrite of_nat_S; ring).
        assumption. }
      exists (S n). split; [lia|]. split.
      * cbn [Corridor.visited]. constructor; assumption.
      * replace (query_l + of_nat (S n) * delta_l)
          with (query_l + delta_l + of_nat n * delta_l)
          by (rewrite of_nat_S; ring).
        assumption.
Qed.

End Sampling.

(** Without the precondition the loop does not stop: a step that is not
    positive never takes [query_l] beyond a length it does not exceed. *)
Lemma sampling_loop_needs_positive_step (c : Corridor.t)
    (delta_l max_length : RealType) :
  delta_l <= 0 ->
  forall (fuel : nat) (query_l : RealType) (out : Corridor.Polylines),
    query_l <= max_length ->
    Corridor.sampling_loop fuel c delta_l max_length query_l out = None.
Proof.
  intro Hstep. induction fuel as [|fuel IH]; intros query_l out Hin; [reflexivity|].
  cbn [Corridor.sampling_loop].
  replace (Qcleb query_l max_length) with true by (symmetry; apply Qcleb_true; assumption).
  apply IH. qc_lra.
Qed.

(** Over exact numbers a positive step always takes [query_l] beyond the
    length: the number of rounds and the fuel that suffices. *)
Lemma sampling_loop_result (c : Corridor.t) (delta_l : RealType) :
  0 < delta_l ->
  exists n : nat,
    Forall (fun x => x <= CubicSpline.GetTotalLength (Corridor.referenceLine_ c))
      (Corridor.visited n delta_l 0)
    /\ CubicSpline.GetTotalLength (Corridor.referenceLine_ c) < 0 + of_nat n * delta_l
    /\ forall (fuel : nat) (out : Corridor.Polylines),
         (S n <= fuel)%nat ->
         Corridor.sampling_loop fuel c delta_l
           (CubicSpline.GetTotalLength (Corridor.referenceLine_ c)) 0 out
         = Some (0 + of_nat n * delta_l,
                 Corridor.emplace_samples c (Corridor.visited n delta_l 0) out).
Proof.
  intro Hpos.
  destruct (multiple_above delta_l
              (CubicSpline.GetTotalLength (Corridor.referenceLine_ c)) Hpos) as [N HN].
  destruct (sampling_loop_stops c delta_l N 0) as [n [_ [Hall Hstop]]].
  { replace (0 + of_nat N * delta_l) with (of_nat N * delta_l)
      by (ring).
    assumption. }
  exists n. split; [assumption|]. split; [assumption|].
  intros fuel out Hfuel. apply sampling_loop_run; (assumption || lia).
Qed.

(** The sampling of the description: step 0.7 on a line of length 2 gives
    the arc-lengths 0, 0.7, 1.4 and the forced 2.0; read off the east-running
    line, where the first coordinate of a reference point is its
    arc-length. *)
Example samples_step_07 :
  option_map (fun r => map (fun p => this (pt_x p)) (Corridor.reference_line r))
    (Corridor.fillCartesianPolylines 10 short_corridor (Q2Qc (7 # 10))
       (Corridor.mkPolylines [mkPoint 1 1] [] []))
  = Some [0; 7 # 10; 7 # 5; 2]%Q.
Proof. vm_compute. reflexivity. Qed.

(** Step 0.5 on a line of length 2: the arc-length 2 is sampled by the last
    round of the loop and again after the loop. *)
Example samples_step_05 :
  option_map (fun r => map (fun p => this (pt_x p)) (Corridor.reference_line r))
    (Corridor.fillCartesianPolylines 10 short_corridor one_half
       (Corridor.mkPolylines [] [] []))
  = Some [0; 1 # 2; 1; 3 # 2; 2; 2]%Q.
Proof. vm_compute. reflexivity. Qed.

(** * Further properties *)

(** ** Corridor: width and centre *)

(** X1: when the right distance is not positive, the width is the signed
    gap between the two boundary distances, left minus right. *)
Theorem widthAt_is_gap (c : Corridor.t) (arc_length : RealType) :
  snd (Corridor.signedDistancesAt c arc_length) <= 0 ->
  Corridor.widthAt c arc_length
  = fst (Corridor.signedDistancesAt c arc_length)
    - snd (Corridor.signedDistancesAt c arc_length).
Proof.
  unfold Corridor.widthAt, Corridor.signedDistancesAt. cbn [fst snd].
  intro Hneg. rewrite (Qcabs_neg _ Hneg). ring.
Qed.

Lemma widthAt_is_gap_witness :
  snd (Corridor.signedDistancesAt short_corridor (real 1)) <= 0
  /\ Corridor.widthAt short_corridor (real 1)
     = fst (Corridor.signedDistancesAt short_corridor (real 1))
       - snd (Corridor.signedDistancesAt short_corridor (real 1)).
Proof.
  assert (H : snd (Corridor.signedDistancesAt short_corridor (real 1)) <= 0)
    by (apply Qcleb_true; vm_compute; reflexivity).
  split; [exact H|].
  exact (widthAt_is_gap short_corridor (real 1) H).
Defined.

(** X2: with a left distance that is not negative the width is not
    negative. *)
Theorem widthAt_nonnegative (c : Corridor.t) (arc_length : RealType) :
  0 <= fst (Corridor.signedDistancesAt c arc_length) ->
  0 <= Corridor.widthAt c arc_length.
Proof.
  unfold Corridor.widthAt, Corridor.signedDistancesAt. cbn [fst].
  intro Hleft.
  pose proof (Qcabs_nonneg
                (FrenetPolyline.deviationAt (Corridor.rightBound_ c) arc_length)) as Habs.
  generalize dependent (Qcabs (FrenetPolyline.deviationAt (Corridor.rightBound_ c) arc_length)).
  intros a Ha. qc_lra.
Qed.

Lemma widthAt_nonnegative_witness :
  0 <= fst (Corridor.signedDistancesAt short_corridor (real 1))
  /\ 0 <= Corridor.widthAt short_corridor (real 1).
Proof.
  assert (H : 0 <= fst (Corridor.signedDistancesAt short_corridor (real 1)))
    by (apply Qcleb_true; vm_compute; reflexivity).
  split; [exact H|].
  exact (widthAt_nonnegative short_corridor (real 1) H).
Defined.

(** ** Corridor: the fixed-width constructors *)

(** X4: the fixed-width construction gives both profiles exactly one node
    per node of the reference line, at the arc-length of that node, with the
    left distance on the left and the negated right distance on the right. *)
Theorem with_fixed_bounds_nodes (referenceLine : CubicSpline.t) (dl dr : RealType) :
  length (Corridor.leftBound_ (Corridor.with_fixed_bounds referenceLine dl dr))
  = CubicSpline.GetSize referenceLine
  /\ length (Corridor.rightBound_ (Corridor.with_fixed_bounds referenceLine dl dr))
     = CubicSpline.GetSize referenceLine
  /\ forall i : nat,
       (i < CubicSpline.GetSize referenceLine)%nat ->
       nth_error (Corridor.leftBound_ (Corridor.with_fixed_bounds referenceLine dl dr)) i
       = Some (CubicSpline.GetArclengthAtIndex referenceLine i, dl)
       /\ nth_error (Corridor.rightBound_ (Corridor.with_fixed_bounds referenceLine dl dr)) i
          = Some (CubicSpline.GetArclengthAtIndex referenceLine i, - dr).
Proof.
  destruct (with_fixed_bounds_profiles referenceLine dl dr) as [HL HR].
  rewrite HL, HR. rewrite !length_map, !length_seq.
  split; [reflexivity|]. split; [reflexivity|].
  intros i Hi. split.
  - rewrite (nth_error_map (fun k => (CubicSpline.GetArclengthAtIndex referenceLine k, dl))).
    rewrite nth_error_seq.
    destruct (Nat.ltb_spec i (CubicSpline.GetSize referenceLine)); [reflexivity|lia].
  - rewrite (nth_error_map (fun k => (CubicSpline.GetArclengthAtIndex referenceLine k, - dr))).
    rewrite nth_error_seq.
    destruct (Nat.ltb_spec i (CubicSpline.GetSize referenceLine)); [reflexivity|lia].
Qed.

(** X5: a corridor built by either fixed-width constructor, over a reference
    line with at least one node, has at every arc-length the distances
    (left, -right), the width left + |right| and the centre offset
    (left - right) * 0.5. *)
Theorem fixed_width_queries (referenceLine : CubicSpline.t)
    (dl dr arc_length : RealType) :
  (1 <= CubicSpline.GetSize referenceLine)%nat ->
  Corridor.signedDistancesAt (Corridor.with_fixed_bounds referenceLine dl dr) arc_length
  = (dl, - dr)
  /\ Corridor.widthAt (Corridor.with_fixed_bounds referenceLine dl dr) arc_length
     = dl + Qcabs dr
  /\ Corridor.centerOffset (Corridor.with_fixed_bounds referenceLine dl dr) arc_length
     = (dl - dr) * one_half.
Proof.
  intro Hsize.
  pose proof (with_fixed_bounds_distances referenceLine dl dr arc_length Hsize) as Hd.
  split; [exact Hd|]. split.
  - change (Corridor.widthAt ?c ?s)
      with (fst (Corridor.signedDistancesAt c s)
            + Qcabs (snd (Corridor.signedDistancesAt c s))).
    rewrite Hd. cbn [fst snd]. rewrite Qcabs_opp. reflexivity.
  - unfold Corridor.centerOffset. rewrite Hd. cbn [fst snd]. ring.
Qed.

Lemma fixed_width_queries_witness :
  (1 <= CubicSpline.GetSize line_A)%nat
  /\ Corridor.centerOffset
       (Corridor.Corridor_fixed_tangents (fun _ _ _ _ => line_A) 7%Z points_A east east
          (real 2) (real 1)) (real 4)
     = (real 2 - real 1) * one_half.
Proof.
  split; [simpl; lia|].
  apply (fixed_width_queries line_A (real 2) (real 1) (real 4)).
  simpl; lia.
Defined.

(** ** Corridor: a step that is not positive *)

(** X8: with a step that is not positive and a length that is not negative
    the function returns with no amount of fuel: the loop never leaves
    arc-lengths that do not exceed the length. *)
Theorem fillCartesianPolylines_step_not_positive (c : Corridor.t) (delta_l : RealType)
    (fuel : nat) (out : Corridor.Polylines) :
  delta_l <= 0 ->
  0 <= CubicSpline.GetTotalLength (Corridor.referenceLine_ c) ->
  Corridor.fillCartesianPolylines fuel c delta_l out = None.
Proof.
  intros Hstep Hlen. unfold Corridor.fillCartesianPolylines.
  rewrite (sampling_loop_needs_positive_step c delta_l _ Hstep fuel 0 _ Hlen).
  reflexivity.
Qed.

Lemma fillCartesianPolylines_step_not_positive_witness :
  0 <= 0
  /\ 0 <= CubicSpline.GetTotalLength (Corridor.referenceLine_ short_corridor)
  /\ Corridor.fillCartesianPolylines 1000 short_corridor 0 (Corridor.mkPolylines [] [] [])
     = None.
Proof.
  assert (Hzero : 0 <= 0) by (apply Qcleb_true; reflexivity).
  assert (Hlen : 0 <= CubicSpline.GetTotalLength (Corridor.referenceLine_ short_corridor))
    by (apply Qcleb_true; reflexivity).
  split; [exact Hzero|]. split; [exact Hlen|].
  exact (fillCartesianPolylines_step_not_positive short_corridor 0 1000
           (Corridor.mkPolylines [] [] []) Hzero Hlen).
Defined.

(** ** CorridorSequence: the point queries together *)

(** X10: at every global arc-length the four point queries of a sequence
    answer for one and the same corridor and local arc-length: they are all
    defined or all undefined, the width is the left distance plus the
    absolute right distance of [signedDistancesAt], and the centre offset is
    half their sum. *)
Theorem sequence_queries_agree (corridor_map_ : CorridorSequence.CorridorSequenceMap)
    (arc_length : RealType) :
  CorridorSequence.widthAt corridor_map_ arc_length
  = option_map (fun distances => fst distances + Qcabs (snd distances))
      (CorridorSequence.signedDistancesAt corridor_map_ arc_length)
  /\ CorridorSequence.centerOffsetAt corridor_map_ arc_length
     = option_map (fun distances => (fst distances + snd distances) * one_half)
         (CorridorSequence.signedDistancesAt corridor_map_ arc_length)
  /\ (CorridorSequence.curvatureAt corridor_map_ arc_length = None
      <-> CorridorSequence.signedDistancesAt corridor_map_ arc_length = None).
Proof.
  unfold CorridorSequence.widthAt, CorridorSequence.centerOffsetAt,
    CorridorSequence.curvatureAt, CorridorSequence.signedDistancesAt.
  destruct (CorridorSequence.entry_at corridor_map_ arc_length) as [[first second]|].
  - cbn [option_map]. repeat split; discriminate.
  - repeat split; reflexivity.
Qed.

(** ** CorridorSequence: chained sequences *)

Lemma chained_from_lookup :
  forall (corridor_map_ : CorridorSequence.CorridorSequenceMap)
         (offset arc_length : RealType),
    chained_from offset corridor_map_ = true ->
    offset <= arc_length ->
    arc_length < offset + sum_of_lengths corridor_map_ ->
    exists (iter : nat) (first : RealType) (second : Corridor.t),
      CorridorSequence.upper_bound corridor_map_ arc_length = S iter
      /\ nth_error corridor_map_ iter = Some (first, second)
      /\ first <= arc_length
      /\ arc_length < first + Corridor.lengthReferenceLine second.
Proof.
  induction corridor_map_ as [|[k c] rest IH]; intros offset arc_length Hch Hlo Hhi.
  - exfalso. unfold sum_of_lengths in Hhi. cbn [fold_right] in Hhi.
    apply (Qcle_not_lt _ _ Hlo). replace (offset + 0) with offset in Hhi by ring.
    exact Hhi.
  - cbn [chained_from] in Hch. apply andb_true_iff in Hch. destruct Hch as [Hk Hrest].
    apply Qc_eq_bool_correct in Hk. subst offset.
    cbn [CorridorSequence.upper_bound].
    replace (Qcltb arc_length k) with false by (symmetry; apply Qcltb_false; exact Hlo).
    destruct (Qclt_le_dec arc_length (k + Corridor.lengthReferenceLine c)) as [Hin|Hout].
    + exists 0%nat, k, c.
      assert (Hub : CorridorSequence.upper_bound rest arc_length = 0%nat).
      { destruct rest as [|[k1 c1] rest']; [reflexivity|].
        cbn [chained_from] in Hrest. apply andb_true_iff in Hrest.
        destruct Hrest as [Hk1 _]. apply Qc_eq_bool_correct in Hk1. subst k1.
        cbn [CorridorSequence.upper_bound].
        replace (Qcltb arc_length (k + Corridor.lengthReferenceLine c)) with true
          by (symmetry; apply Qcltb_true; exact Hin).
        reflexivity. }
      rewrite Hub. repeat split; assumption.
    + destruct (IH (k + Corridor.lengthReferenceLine c) arc_length Hrest Hout)
        as [iter [first [second [Hub [Hnth [Hfirst Hlast]]]]]].
      { unfold sum_of_lengths in Hhi |- *. cbn [fold_right snd] in Hhi.
        replace (k + Corridor.lengthReferenceLine c
                 + fold_right (fun entry acc => Corridor.lengthReferenceLine (snd entry) + acc)
                     0 rest)
          with (k + (Corridor.lengthReferenceLine c
                     + fold_right (fun entry acc => Corridor.lengthReferenceLine (snd entry) + acc)
                         0 rest)) by ring.
        exact Hhi. }
      exists (S iter), first, second. rewrite Hub. repeat split; assumption.
Qed.

Lemma totalLength_chained (corridor_map_ : CorridorSequence.CorridorSequenceMap)
    (total : RealType) :
  chained corridor_map_ = true ->
  CorridorSequence.totalLength corridor_map_ = Some total ->
  total = sum_of_lengths corridor_map_.
Proof.
  intros Hch Htotal.
  destruct corridor_map_ as [|entry rest]; [discriminate|].
  assert (Hne : entry :: rest <> []) by discriminate.
  unfold CorridorSequence.totalLength in Htotal.
  rewrite (rev_last _ entry Hne) in Htotal.
  pose proof (chained_from_end (entry :: rest) entry 0 Hne Hch) as Hend.
  destruct (last (entry :: rest) entry) as [first second]. cbn [fst snd] in Hend.
  injection Htotal as <-. rewrite Hend. ring.
Qed.

(** X11: in a chained sequence every global arc-length from 0 up to, but not
    including, the total length is answered by the corridor of the sequence
    whose stretch of the chain contains it: the key of that entry does not
    exceed the arc-length, and the arc-length is less than the key plus the
    reference-line length of the corridor (the key of the next entry, or the
    total length for the last one). *)
Theorem chained_lookup_interval (corridor_map_ : CorridorSequence.CorridorSequenceMap)
    (arc_length total : RealType) :
  chained corridor_map_ = true ->
  CorridorSequence.totalLength corridor_map_ = Some total ->
  0 <= arc_length -> arc_length < total ->
  exists (first : RealType) (second : Corridor.t),
    In (first, second) corridor_map_
    /\ CorridorSequence.entry_at corridor_map_ arc_length = Some (first, second)
    /\ first <= arc_length
    /\ arc_length < first + Corridor.lengthReferenceLine second
    /\ CorridorSequence.widthAt corridor_map_ arc_length
       = Some (Corridor.widthAt second (arc_length - first)).
Proof.
  intros Hch Htotal Hlo Hhi.
  rewrite (totalLength_chained corridor_map_ total Hch Htotal) in Hhi.
  destruct (chained_from_lookup corridor_map_ 0 arc_length Hch Hlo)
    as [iter [first [second [Hub [Hnth [Hfirst Hlast]]]]]].
  { replace (0 + sum_of_lengths corridor_map_) with (sum_of_lengths corridor_map_) by ring.
    exact Hhi. }
  exists first, second.
  assert (Hentry : CorridorSequence.entry_at corridor_map_ arc_length = Some (first, second)).
  { unfold CorridorSequence.entry_at, CorridorSequence.get. rewrite Hub. exact Hnth. }
  split; [eapply nth_error_In; exact Hnth|]. split; [exact Hentry|].
  split; [exact Hfirst|]. split; [exact Hlast|].
  unfold CorridorSequence.widthAt. rewrite Hentry. reflexivity.
Qed.

Lemma chained_lookup_interval_witness :
  chained two_corridors = true
  /\ 0 <= real 12
  /\ exists (first : RealType) (second : Corridor.t),
       CorridorSequence.entry_at two_corridors (real 12) = Some (first, second)
       /\ first <= real 12
       /\ real 12 < first + Corridor.lengthReferenceLine second.
Proof.
  assert (Hch : chained two_corridors = true) by (vm_compute; reflexivity).
  assert (Hlo : 0 <= real 12) by (apply Qcleb_true; vm_compute; reflexivity).
  assert (Hhi : real 12 < real 10 + Corridor.lengthReferenceLine corridor_B)
    by (apply Qcltb_true; vm_compute; reflexivity).
  split; [exact Hch|]. split; [exact Hlo|].
  destruct (chained_lookup_interval two_corridors (real 12)
              (real 10 + Corridor.lengthReferenceLine corridor_B) Hch eq_refl Hlo Hhi)
    as [first [second [_ [Hentry [Hle [Hlt _]]]]]].
  exists first, second. split; [exact Hentry|]. split; [exact Hle|exact Hlt].
Defined.

Lemma sum_of_lengths_nonnegative (corridor_map_ : CorridorSequence.CorridorSequenceMap) :
  Forall (fun entry => 0 <= Corridor.lengthReferenceLine (snd entry)) corridor_map_ ->
  0 <= sum_of_lengths corridor_map_.
Proof.
  induction corridor_map_ as [|e rest IH]; intro Hpos; [apply Qcle_refl|].
  apply Forall_cons_iff in Hpos. destruct Hpos as [He Hpos].
  specialize (IH Hpos).
  change (sum_of_lengths (e :: rest))
    with (Corridor.lengthReferenceLine (snd e) + sum_of_lengths rest).
  revert He IH.
  generalize (sum_of_lengths rest), (Corridor.lengthReferenceLine (snd e)).
  intros b a Ha Hb. qc_lra.
Qed.

Lemma end_reassociated (k a b s : RealType) : k + (a + b) <= s -> k + a + b <= s.
Proof. intro H. qc_lra. Qed.

Lemma start_before_end (k a b s : RealType) :
  0 <= a -> 0 <= b -> k + (a + b) <= s -> k <= s.
Proof. intros Ha Hb H. qc_lra. Qed.

Lemma chained_from_beyond :
  forall (corridor_map_ : CorridorSequence.CorridorSequenceMap)
         (offset arc_length : RealType),
    chained_from offset corridor_map_ = true ->
    Forall (fun entry => 0 <= Corridor.lengthReferenceLine (snd entry)) corridor_map_ ->
    corridor_map_ <> [] ->
    offset + sum_of_lengths corridor_map_ <= arc_length ->
    CorridorSequence.upper_bound corridor_map_ arc_length = length corridor_map_.
Proof.
  induction corridor_map_ as [|[k c] rest IH];
    intros offset arc_length Hch Hpos Hne Hhi; [congruence|].
  cbn [chained_from] in Hch. apply andb_true_iff in Hch. destruct Hch as [Hk Hrest].
  apply Qc_eq_bool_correct in Hk. subst offset.
  apply Forall_cons_iff in Hpos. destruct Hpos as [Hc Hpos]. cbn [snd] in Hc.
  change (sum_of_lengths ((k, c) :: rest))
    with (Corridor.lengthReferenceLine c + sum_of_lengths rest) in Hhi.
  pose proof (sum_of_lengths_nonnegative rest Hpos) as Hrest_nonneg.
  cbn [CorridorSequence.upper_bound length].
  replace (Qcltb arc_length k) with false
    by (symmetry; apply Qcltb_false;
        exact (start_before_end _ _ _ _ Hc Hrest_nonneg Hhi)).
  f_equal. destruct rest as [|entry rest']; [reflexivity|].
  apply (IH (k + Corridor.lengthReferenceLine c)); try assumption; [discriminate|].
  apply end_reassociated. exact Hhi.
Qed.

Lemma last_position (corridor_map_ : CorridorSequence.CorridorSequenceMap)
    (dflt : RealType * Corridor.t) :
  corridor_map_ <> [] ->
  length corridor_map_ = S (length (removelast corridor_map_))
  /\ nth_error corridor_map_ (length (removelast corridor_map_))
     = Some (last corridor_map_ dflt).
Proof.
  intro Hne. pose proof (app_removelast_last dflt Hne) as E.
  remember (removelast corridor_map_) as pre eqn:Hpre.
  remember (last corridor_map_ dflt) as x eqn:Hx.
  clear Hpre Hx. subst corridor_map_. split.
  - rewrite length_app. cbn [length]. lia.
  - rewrite nth_error_app2 by lia. rewrite Nat.sub_diag. reflexivity.
Qed.

(** X12: in a chained sequence whose corridors have lengths that are not
    negative, a global arc-length at or beyond the total length is answered
    by the last corridor of the sequence, whose key it does not precede; the
    queries extrapolate on that corridor. *)
Theorem chained_lookup_beyond_end (corridor_map_ : CorridorSequence.CorridorSequenceMap)
    (arc_length total : RealType) (dflt : RealType * Corridor.t) :
  chained corridor_map_ = true ->
  Forall (fun entry => 0 <= Corridor.lengthReferenceLine (snd entry)) corridor_map_ ->
  CorridorSequence.totalLength corridor_map_ = Some total ->
  total <= arc_length ->
  CorridorSequence.entry_at corridor_map_ arc_length = Some (last corridor_map_ dflt)
  /\ fst (last corridor_map_ dflt) <= arc_length
  /\ CorridorSequence.widthAt corridor_map_ arc_length
     = Some (Corridor.widthAt (snd (last corridor_map_ dflt))
               (arc_length - fst (last corridor_map_ dflt))).
Proof.
  intros Hch Hpos Htotal Hhi.
  assert (Hne : corridor_map_ <> []) by (intro H; subst; discriminate).
  pose proof (totalLength_chained corridor_map_ total Hch Htotal) as Hsum.
  pose proof (chained_from_end corridor_map_ dflt 0 Hne Hch) as Hend.
  assert (Hub : CorridorSequence.upper_bound corridor_map_ arc_length = length corridor_map_).
  { apply (chained_from_beyond corridor_map_ 0); try assumption.
    rewrite <- Hsum. replace (0 + total) with total by ring. exact Hhi. }
  assert (Hentry : CorridorSequence.entry_at corridor_map_ arc_length
                   = Some (last corridor_map_ dflt)).
  { unfold CorridorSequence.entry_at, CorridorSequence.get. rewrite Hub.
    destruct (last_position corridor_map_ dflt Hne) as [Hlen Hnth].
    rewrite Hlen. exact Hnth. }
  split; [exact Hentry|]. split.
  - assert (Hlast_nonneg : 0 <= Corridor.lengthReferenceLine (snd (last corridor_map_ dflt))).
    { rewrite Forall_forall in Hpos. apply Hpos.
      rewrite (app_removelast_last dflt Hne) at 2. apply in_or_app. right. left. reflexivity. }
    assert (Ha : total = fst (last corridor_map_ dflt)
                         + Corridor.lengthReferenceLine (snd (last corridor_map_ dflt)))
      by (rewrite Hend, Hsum; ring).
    rewrite Ha in Hhi. revert Hhi Hlast_nonneg.
    generalize (Corridor.lengthReferenceLine (snd (last corridor_map_ dflt))),
               (fst (last corridor_map_ dflt)).
    intros a k Hhi Ha0. qc_lra.
  - unfold CorridorSequence.widthAt. rewrite Hentry.
    destruct (last corridor_map_ dflt). reflexivity.
Qed.

Lemma chained_lookup_beyond_end_witness :
  chained two_corridors = true
  /\ CorridorSequence.entry_at two_corridors (real 30) = Some (real 10, corridor_B).
Proof.
  assert (Hch : chained two_corridors = true) by (vm_compute; reflexivity).
  split; [exact Hch|].
  refine (proj1 (chained_lookup_beyond_end two_corridors (real 30)
                   (real 10 + Corridor.lengthReferenceLine corridor_B)
                   (0, short_corridor) Hch _ eq_refl _)).
  - repeat constructor; apply Qcleb_true; vm_compute; reflexivity.
  - apply Qcleb_true. vm_compute. reflexivity.
Defined.

(** ** CorridorSequence: what the resolution returns and when it ends *)

Section ResolutionFurther.

Variable default_arc_length_hint : RealType.
Variable corridor_map_ : CorridorSequence.CorridorSequenceMap.
Variable position : CartesianPoint2D.

Let run := fun fuel =>
  CorridorSequence.getFrenetPositionWithFrame_iter default_arc_length_hint fuel
    corridor_map_ position.
Let local := s_local default_arc_length_hint position.
Let move_of := move_at default_arc_length_hint corridor_map_ position.

(** One call, by the move that the two tests select. *)
Lemma run_by_move (fuel iter : nat) (first : RealType) (second : Corridor.t) :
  nth_error corridor_map_ iter = Some (first, second) ->
  (move_of iter = Some ToPrevious /\ iter <> 0%nat /\ local second < 0
   /\ run (S fuel) iter = run fuel (pred iter))
  \/ (move_of iter = Some ToNext /\ (S iter < length corridor_map_)%nat
      /\ run (S fuel) iter = run fuel (S iter))
  \/ (move_of iter = Some Stay
      /\ (local second < 0 -> iter = 0%nat)
      /\ (Corridor.lengthReferenceLine second < local second ->
          S iter = length corridor_map_)
      /\ run (S fuel) iter
         = Returned (CorridorSequence.project default_arc_length_hint second position)).
Proof.
  intro Hentry.
  assert (Hvalid : (iter < length corridor_map_)%nat)
    by (apply nth_error_Some; congruence).
  unfold run. rewrite (run_step default_arc_length_hint corridor_map_ position
                         fuel iter first second Hentry).
  unfold move_of, move_at. rewrite Hentry.
  change (pos_l (FrenetPositionWithFrame.position
                   (CorridorSequence.project default_arc_length_hint second position)))
    with (local second).
  change (s_local default_arc_length_hint position second) with (local second).
  destruct (Qcltb (local second) 0 && negb (iter =? 0)%nat) eqn:Eprev.
  - left. apply (test_previous default_arc_length_hint corridor_map_ position) in Eprev.
    destruct Eprev as [Hneg Hprev]. unfold has_previous in Hprev.
    repeat split; (reflexivity || assumption || lia).
  - destruct (Qcltb (Corridor.lengthReferenceLine second) (local second)
              && negb (S iter =? length corridor_map_)%nat) eqn:Enext.
    + right. left.
      apply (test_next default_arc_length_hint corridor_map_ position second iter Hvalid)
        in Enext.
      destruct Enext as [_ Hnext]. unfold has_next in Hnext.
      repeat split; (reflexivity || assumption).
    + right. right. split; [reflexivity|]. split; [|split; [|reflexivity]].
      * intro Hneg. destruct iter as [|iter']; [reflexivity|]. exfalso.
        assert (H : Qcltb (local second) 0 && negb (S iter' =? 0)%nat = true)
          by (apply (test_previous default_arc_length_hint corridor_map_ position);
              split; [assumption|unfold has_previous; lia]).
        congruence.
      * intro Hbeyond.
        destruct (Nat.eq_dec (S iter) (length corridor_map_)) as [Heq|Hneq];
          [exact Heq|]. exfalso.
        assert (H : Qcltb (Corridor.lengthReferenceLine second) (local second)
                    && negb (S iter =? length corridor_map_)%nat = true)
          by (apply (test_next default_arc_length_hint corridor_map_ position
                       second iter Hvalid);
              split; [assumption|unfold has_next; lia]).
        congruence.
Qed.

Lemma run_returns_projection :
  forall (fuel iter : nat) (r : FrenetPositionWithFrame.t),
    run fuel iter = Returned r ->
    exists (iter' : nat) (first : RealType) (second : Corridor.t),
      nth_error corridor_map_ iter' = Some (first, second)
      /\ r = CorridorSequence.project default_arc_length_hint second position
      /\ (pos_l (FrenetPositionWithFrame.position r) < 0 -> iter' = 0%nat)
      /\ (Corridor.lengthReferenceLine second < pos_l (FrenetPositionWithFrame.position r) ->
          S iter' = length corridor_map_).
Proof.
  induction fuel as [|fuel IH]; intros iter r Hrun; [discriminate|].
  destruct (nth_error corridor_map_ iter) as [[first second]|] eqn:Hentry.
  - destruct (run_by_move fuel iter first second Hentry)
      as [[_ [_ [_ Hstep]]]|[[_ [_ Hstep]]|[_ [Hfirst [Hlast Hstep]]]]];
      rewrite Hstep in Hrun.
    + exact (IH _ _ Hrun).
    + exact (IH _ _ Hrun).
    + injection Hrun as <-. exists iter, first, second.
      repeat split; assumption.
  - unfold run in Hrun. cbn [CorridorSequence.getFrenetPositionWithFrame_iter] in Hrun.
    rewrite Hentry in Hrun. discriminate.
Qed.

(** X13: whenever [getFrenetPositionWithFrame] returns, the result is the
    projection of the point into one corridor of the sequence, with the
    arc-length local to that corridor; a negative arc-length is returned
    only from the first corridor and an arc-length beyond the reference
    length only from the last. *)
Theorem resolution_result (fuel : nat) (start_arc_length : RealType)
    (r : FrenetPositionWithFrame.t) :
  CorridorSequence.getFrenetPositionWithFrame default_arc_length_hint fuel
    corridor_map_ position start_arc_length = Returned r ->
  exists (iter' : nat) (first : RealType) (second : Corridor.t),
    nth_error corridor_map_ iter' = Some (first, second)
    /\ r = CorridorSequence.project default_arc_length_hint second position
    /\ (pos_l (FrenetPositionWithFrame.position r) < 0 -> iter' = 0%nat)
    /\ (Corridor.lengthReferenceLine second < pos_l (FrenetPositionWithFrame.position r) ->
        S iter' = length corridor_map_).
Proof.
  unfold CorridorSequence.getFrenetPositionWithFrame.
  destruct (CorridorSequence.get corridor_map_ start_arc_length) as [iter|];
    [|discriminate].
  apply run_returns_projection.
Qed.

Hypothesis no_alternation :
  alternation_free default_arc_length_hint corridor_map_ position.

(** A search that does not start by going back runs forward and ends before
    the end of the map. *)
Lemma run_forward :
  forall (n iter : nat),
    (iter < length corridor_map_)%nat -> (length corridor_map_ - iter <= n)%nat ->
    move_of iter <> Some ToPrevious ->
    exists r, run n iter = Returned r.
Proof.
  induction n as [|n IH]; intros iter Hvalid Hn Hmove; [lia|].
  destruct (nth_error corridor_map_ iter) as [[first second]|] eqn:Hentry;
    [|apply nth_error_None in Hentry; lia].
  destruct (run_by_move n iter first second Hentry)
    as [[Hm _]|[[Hm [Hnext Hstep]]|[_ [_ [_ Hstep]]]]].
  - contradiction.
  - rewrite Hstep. apply IH; [assumption|lia|].
    intro Hback. exact (no_alternation iter (conj Hm Hback)).
  - rewrite Hstep. eexists. reflexivity.
Qed.

(** A search that does not start by going forward runs back and ends before
    the start of the map. *)
Lemma run_backward :
  forall (n iter : nat),
    (iter < length corridor_map_)%nat -> (iter < n)%nat ->
    move_of iter <> Some ToNext ->
    exists r, run n iter = Returned r.
Proof.
  induction n as [|n IH]; intros iter Hvalid Hn Hmove; [lia|].
  destruct (nth_error corridor_map_ iter) as [[first second]|] eqn:Hentry;
    [|apply nth_error_None in Hentry; lia].
  destruct (run_by_move n iter first second Hentry)
    as [[Hm [Hpos [_ Hstep]]]|[[Hm _]|[_ [_ [_ Hstep]]]]].
  - rewrite Hstep. apply IH; [lia|lia|].
    intro Hfwd. apply (no_alternation (pred iter)). split; [exact Hfwd|].
    replace (S (pred iter)) with iter by lia. exact Hm.
  - contradiction.
  - rewrite Hstep. eexists. reflexivity.
Qed.

Lemma upper_bound_le (arc_length : RealType) :
  forall m : CorridorSequence.CorridorSequenceMap,
    (CorridorSequence.upper_bound m arc_length <= length m)%nat.
Proof.
  induction m as [|[k c] rest IH]; [apply Nat.le_refl|].
  cbn [CorridorSequence.upper_bound length].
  destruct (Qcltb arc_length k); lia.
Qed.

(** X14: when no two adjacent corridors send the point to each other, the
    search ends: started where [get] selects, [getFrenetPositionWithFrame]
    returns within as many calls as the sequence has corridors, and returns
    the same result with any larger fuel. *)
Theorem resolution_terminates (start_arc_length : RealType) (iter : nat) :
  CorridorSequence.get corridor_map_ start_arc_length = Some iter ->
  exists r : FrenetPositionWithFrame.t,
    forall fuel : nat,
      (length corridor_map_ <= fuel)%nat ->
      CorridorSequence.getFrenetPositionWithFrame default_arc_length_hint fuel
        corridor_map_ position start_arc_length = Returned r.
Proof.
  intro Hget.
  assert (Hvalid : (iter < length corridor_map_)%nat).
  { unfold CorridorSequence.get in Hget.
    pose proof (upper_bound_le start_arc_length corridor_map_) as Hle.
    destruct (CorridorSequence.upper_bound corridor_map_ start_arc_length);
      [discriminate|].
    injection Hget as <-. lia. }
  assert (Hrun : exists r, run (length corridor_map_) iter = Returned r).
  { destruct (move_of iter) as [[| |]|] eqn:Hmove.
    - apply run_backward; [assumption|assumption|congruence].
    - apply run_forward; [assumption|lia|congruence].
    - apply run_forward; [assumption|lia|congruence].
    - apply run_forward; [assumption|lia|congruence]. }
  destruct Hrun as [r Hr]. exists r. intros fuel Hfuel.
  unfold CorridorSequence.getFrenetPositionWithFrame. rewrite Hget.
  exact (run_more_fuel default_arc_length_hint corridor_map_ position
           (length corridor_map_) fuel iter r Hr Hfuel).
Qed.

End ResolutionFurther.

Lemma resolution_result_witness :
  exists r,
    CorridorSequence.getFrenetPositionWithFrame 0 2 two_corridors point_in_B (real 9)
    = Returned r
    /\ exists (iter' : nat) (first : RealType) (second : Corridor.t),
         nth_error two_corridors iter' = Some (first, second)
         /\ r = CorridorSequence.project 0 second point_in_B.
Proof.
  destruct (CorridorSequence.getFrenetPositionWithFrame 0 2 two_corridors point_in_B
              (real 9)) as [r| |] eqn:Hr.
  - exists r. split; [reflexivity|].
    destruct (resolution_result 0 two_corridors point_in_B 2 (real 9) r Hr)
      as [iter' [first [second [Hnth [Hproj _]]]]].
    exists iter', first, second. split; assumption.
  - vm_compute in Hr. discriminate.
  - vm_compute in Hr. discriminate.
Defined.

Lemma resolution_terminates_witness :
  alternation_free 0 two_corridors point_in_B
  /\ CorridorSequence.get two_corridors (real 9) = Some 0%nat
  /\ exists r,
       CorridorSequence.getFrenetPositionWithFrame 0 2 two_corridors point_in_B (real 9)
       = Returned r.
Proof.
  assert (Hfree : alternation_free 0 two_corridors point_in_B).
  { intros i [_ Hback].
    destruct i as [|[|i]]; vm_compute in Hback; discriminate. }
  assert (Hget : CorridorSequence.get two_corridors (real 9) = Some 0%nat)
    by (vm_compute; reflexivity).
  split; [exact Hfree|]. split; [exact Hget|].
  destruct (resolution_terminates 0 two_corridors point_in_B Hfree (real 9) 0 Hget)
    as [r Hr].
  exists r. apply Hr. simpl. lia.
Defined.

(** ** Stream output of corridor paths *)

Lemma append_assoc (a b c : string) : ((a ++ b) ++ c = a ++ (b ++ c))%string.
Proof. induction a as [|ch a IH]; cbn; [reflexivity|]. now rewrite IH. Qed.

Lemma append_empty (a : string) : (a ++ "" = a)%string.
Proof. induction a as [|ch a IH]; cbn; [reflexivity|]. now rewrite IH. Qed.

Lemma concat_cons (x : string) (xs : list string) :
  String.concat "" (x :: xs) = (x ++ String.concat "" xs)%string.
Proof.
  destruct xs as [|y ys]; cbn [String.concat].
  - symmetry. apply append_empty.
  - reflexivity.
Qed.

Section PrintingFacts.

Variable print_id : Corridor.t -> string.

Lemma print_path_text (path : Printing.CorridorPath) (os : string) :
  Printing.print_path print_id os path = (os ++ Printing.path_text print_id path)%string.
Proof.
  unfold Printing.print_path, Printing.path_text.
  assert (Hfold : forall (p : Printing.CorridorPath) (acc : string),
             fold_left (fun os c => ((os ++ " -> ") ++ print_id c)%string) p acc
             = (acc ++ String.concat ""
                         (map (fun c => (" -> " ++ print_id c)%string) p))%string).
  { induction p as [|c p IH]; intro acc.
    - cbn. symmetry. apply append_empty.
    - cbn [fold_left map]. rewrite IH, concat_cons, !append_assoc. reflexivity. }
  rewrite Hfold, !append_assoc. reflexivity.
Qed.

(** X15: printing a list of paths keeps what the stream held and appends the
    title line and then, for each path in order, the line
    "Corridor-Path:" with " -> " and the id of each of its corridors,
    followed by an empty line; printing one path appends just its line. *)
Theorem print_paths_text (paths : Printing.CorridorPaths) (os : string) :
  Printing.print_paths print_id os paths
  = (os ++ Printing.paths_text print_id paths)%string
  /\ forall path : Printing.CorridorPath,
       Printing.print_path print_id os path
       = (os ++ Printing.path_text print_id path)%string.
Proof.
  split; [|intro path; apply print_path_text].
  unfold Printing.print_paths, Printing.paths_text.
  assert (Hfold : forall (ps : Printing.CorridorPaths) (acc : string),
             fold_left (fun os path =>
                          (Printing.print_path print_id os path
                           ++ String "010" EmptyString)%string) ps acc
             = (acc ++ String.concat ""
                         (map (fun path =>
                                 (Printing.path_text print_id path
                                  ++ String "010" EmptyString)%string) ps))%string).
  { induction ps as [|p ps IH]; intro acc.
    - cbn. symmetry. apply append_empty.
    - cbn [fold_left map]. rewrite IH, concat_cons, print_path_text, !append_assoc.
      reflexivity. }
  rewrite Hfold, !append_assoc. reflexivity.
Qed.

End PrintingFacts.

(** Two paths, the first through both fixture corridors and the second
    empty, with every corridor printed as "7". *)
Example print_paths_example :
  Printing.print_paths (fun _ => "7"%string) "log: "%string
    [[short_corridor; corridor_B]; []]
  = ("log: --- Corridor-Paths ---" ++ String "010" EmptyString
     ++ "Corridor-Path: -> 7 -> 7" ++ String "010" (String "010" EmptyString)
     ++ "Corridor-Path:" ++ String "010" (String "010" EmptyString))%string.
Proof. reflexivity. Qed.

(** * The sampling over exact numbers and over doubles *)

(** ** Order and addition of the doubles *)

Lemma SFcompare_antisym (x y : spec_float) :
  SFcompare y x = option_map CompOpp (SFcompare x y).
Proof.
  destruct x as [sx|sx| |sx mx ex], y as [sy|sy| |sy my ey]; cbn;
    try reflexivity;
    try (destruct sx; reflexivity); try (destruct sy; reflexivity);
    try (destruct sx, sy; reflexivity).
  destruct sx, sy; cbn; try reflexivity; f_equal;
    rewrite (Z.compare_antisym ex ey); destruct (ex ?= ey)%Z; cbn; try reflexivity;
    rewrite !Pos.compare_cont_spec; cbn; rewrite (Pos.compare_antisym mx my);
    destruct (mx ?= my)%positive; reflexivity.
Qed.

Lemma SFcompare_refl (x : spec_float) : x <> S754_nan -> SFcompare x x = Some Eq.
Proof.
  destruct x as [s|s| |s m e]; intro H; cbn; try reflexivity; try congruence.
  - destruct s; reflexivity.
  - destruct s; rewrite Z.compare_refl, Pos.compare_cont_spec, Pos.compare_refl;
      reflexivity.
Qed.

Lemma SFleb_zero (x : spec_float) : SFleb (S754_zero false) x = sf_nonneg x.
Proof. destruct x as [s|s| |s m e]; cbn; try reflexivity; destruct s; reflexivity. Qed.

Lemma SFltb_zero (x : spec_float) : SFltb (S754_zero false) x = sf_pos x.
Proof. destruct x as [s|s| |s m e]; cbn; try reflexivity; destruct s; reflexivity. Qed.

Lemma sf_nonneg_not_nan (x : spec_float) : sf_nonneg x = true -> x <> S754_nan.
Proof. intros H E. subst x. discriminate. Qed.

(** Rounding a mantissa that is not negative gives no NaN and no negative
    number. *)
Section RoundingSign.

Variables prec emax : Z.

Lemma shr_1_nonneg (mrs : shr_record) :
  (0 <= shr_m mrs)%Z -> (0 <= shr_m (shr_1 mrs))%Z.
Proof.
  destruct mrs as [m r s]. cbn. destruct m as [|p|p]; cbn; try lia.
  destruct p; cbn; lia.
Qed.

Lemma iter_shr_1_nonneg (p : positive) :
  forall mrs, (0 <= shr_m mrs)%Z -> (0 <= shr_m (SpecFloat.iter_pos shr_1 p mrs))%Z.
Proof.
  induction p as [p IH|p IH|]; intros mrs H; cbn.
  - apply IH, IH, shr_1_nonneg, H.
  - apply IH, IH, H.
  - apply shr_1_nonneg, H.
Qed.

Lemma shr_fexp_nonneg (m e : Z) (l : location) :
  (0 <= m)%Z -> (0 <= shr_m (fst (shr_fexp prec emax m e l)))%Z.
Proof.
  intro H. unfold shr_fexp, shr.
  assert (H0 : (0 <= shr_m (shr_record_of_loc m l))%Z)
    by (destruct l as [|[| |]]; exact H).
  destruct (fexp prec emax (Zdigits2 m + e) - e)%Z; cbn [fst]; try exact H0.
  apply iter_shr_1_nonneg, H0.
Qed.

Lemma round_nearest_even_nonneg (m : Z) (l : location) :
  (0 <= m)%Z -> (0 <= round_nearest_even m l)%Z.
Proof.
  intro H. destruct l as [|[| |]]; cbn; try lia. destruct (Z.even m); lia.
Qed.

Lemma binary_round_aux_nonneg (m e : Z) (l : location) :
  (0 <= m)%Z -> sf_nonneg (binary_round_aux prec emax false m e l) = true.
Proof.
  intro H. unfold binary_round_aux.
  pose proof (shr_fexp_nonneg m e l H) as H1.
  destruct (shr_fexp prec emax m e l) as [mrs' e']. cbn [fst] in H1.
  pose proof (shr_fexp_nonneg _ e' loc_Exact
                (round_nearest_even_nonneg _ (loc_of_shr_record mrs') H1)) as H2.
  destruct (shr_fexp prec emax (round_nearest_even (shr_m mrs') (loc_of_shr_record mrs'))
              e' loc_Exact) as [mrs'' e'']. cbn [fst] in H2.
  destruct (shr_m mrs'') as [|p|p]; try reflexivity; try lia.
  destruct (e'' <=? emax - prec)%Z; reflexivity.
Qed.

Lemma SFadd_nonneg (x y : spec_float) :
  sf_nonneg x = true -> sf_pos y = true -> sf_nonneg (SFadd prec emax x y) = true.
Proof.
  destruct x as [sx|sx| |sx mx ex], y as [sy|sy| |sy my ey]; cbn; intros Hx Hy;
    try discriminate; try assumption;
    try (destruct sx; try discriminate; destruct sy; try discriminate; reflexivity).
  destruct sx; [discriminate|]. destruct sy; [discriminate|].
  cbn [cond_Zopp].
  change (Z.pos ?a + Z.pos ?b)%Z with (Z.pos (a + b)).
  cbn [binary_normalize]. unfold binary_round.
  destruct (shl_align _ _ _) as [mz ez].
  apply binary_round_aux_nonneg. lia.
Qed.

End RoundingSign.

Lemma double_zero : Prim2SF 0%float = S754_zero false.
Proof. reflexivity. Qed.

Lemma double_leb_zero (a : float) : PrimFloat.leb 0%float a = sf_nonneg (Prim2SF a).
Proof. rewrite leb_spec, double_zero. apply SFleb_zero. Qed.

Lemma double_ltb_zero (a : float) : PrimFloat.ltb 0%float a = sf_pos (Prim2SF a).
Proof. rewrite ltb_spec, double_zero. apply SFltb_zero. Qed.

(** The doubles satisfy the facts that the statements use. *)
Lemma double_lawful : Sampling.lawful double.
Proof.
  constructor; cbn [double Sampling.zero Sampling.add Sampling.leb Sampling.ltb].
  - reflexivity.
  - intros a s. rewrite !double_leb_zero, double_ltb_zero, add_spec. apply SFadd_nonneg.
  - intros a b. rewrite !double_leb_zero, leb_spec, ltb_spec. intros Ha Hb.
    unfold SFleb, SFltb. rewrite (SFcompare_antisym (Prim2SF a) (Prim2SF b)).
    destruct (SFcompare (Prim2SF a) (Prim2SF b)) as [[| |]|] eqn:E; cbn; try congruence.
    exfalso.
    destruct (Prim2SF a) as [sa|sa| |sa ma ea], (Prim2SF b) as [sb|sb| |sb mb eb];
      cbn in *; congruence.
  - intros a. rewrite double_leb_zero, leb_spec. intro Ha. unfold SFleb.
    rewrite (SFcompare_refl _ (sf_nonneg_not_nan _ Ha)). reflexivity.
  - intros a b. rewrite leb_spec, ltb_spec. unfold SFleb, SFltb.
    rewrite (SFcompare_antisym (Prim2SF a) (Prim2SF b)).
    destruct (SFcompare (Prim2SF a) (Prim2SF b)) as [[| |]|]; cbn; congruence.
Qed.

(** So do the exact numbers. *)
Lemma exact_lawful : Sampling.lawful exact.
Proof.
  constructor; cbn [exact Sampling.zero Sampling.add Sampling.leb Sampling.ltb].
  - apply Qcleb_true. apply Qcle_refl.
  - intros a s Ha Hs. apply Qcleb_true in Ha. apply Qcltb_true in Hs.
    apply Qcleb_true. qc_lra.
  - intros a b _ _ Hab. apply Qcleb_false in Hab. apply Qcltb_true. exact Hab.
  - intros a _. apply Qcleb_true. apply Qcle_refl.
  - intros a b Hab. apply Qcltb_true in Hab. apply Qcleb_false. exact Hab.
Qed.

(** ** The two embeddings of the sampling agree on exact numbers *)

Lemma sampling_loop_exact (c : Corridor.t) (delta_l max_length : RealType) :
  forall (fuel : nat) (query_l : RealType) (out : Corridor.Polylines),
    Sampling.sampling_loop exact (view_of c) fuel delta_l max_length query_l
      (polylines_of out)
    = option_map (fun result => (fst result, polylines_of (snd result)))
        (Corridor.sampling_loop fuel c delta_l max_length query_l out).
Proof.
  induction fuel as [|fuel IH]; intros query_l out; [reflexivity|].
  cbn [Sampling.sampling_loop Corridor.sampling_loop].
  change (Sampling.leb exact query_l max_length) with (Qcleb query_l max_length).
  destruct (Qcleb query_l max_length); [|reflexivity].
  rewrite <- IH. reflexivity.
Qed.

Lemma fillCartesianPolylines_exact (c : Corridor.t) (delta_l : RealType) (fuel : nat)
    (out : Corridor.Polylines) :
  Sampling.fillCartesianPolylines exact (view_of c) fuel delta_l (polylines_of out)
  = option_map polylines_of (Corridor.fillCartesianPolylines fuel c delta_l out).
Proof.
  unfold Sampling.fillCartesianPolylines, Corridor.fillCartesianPolylines.
  change (Sampling.clear (polylines_of out)) with (polylines_of (Corridor.clear out)).
  change (Sampling.GetTotalLength (view_of c))
    with (CubicSpline.GetTotalLength (Corridor.referenceLine_ c)).
  change (Sampling.zero exact) with (Q2Qc 0).
  rewrite sampling_loop_exact.
  destruct (Corridor.sampling_loop fuel c delta_l
              (CubicSpline.GetTotalLength (Corridor.referenceLine_ c)) 0
              (Corridor.clear out)) as [[query_l out']|]; [|reflexivity].
  cbn [option_map fst snd].
  change (Sampling.ltb exact ?a ?b) with (Qcltb a b).
  destruct (Qcltb (CubicSpline.GetTotalLength (Corridor.referenceLine_ c)) query_l);
    reflexivity.
Qed.

(** ** The run of the loop over any arithmetic *)

Section SamplingFacts.

Context {F P V : Type}.
Variable A : Sampling.arithmetic F.
Variable K : Sampling.view F P V.
Variable delta_l : F.

Let max_length := Sampling.GetTotalLength K.
Let left_of := fun q : F =>
  Sampling.displaced K (Sampling.GetPositionAt K q)
    (Sampling.leftBound_deviationAt K q) (Sampling.GetNormalVectorAt K q).
Let right_of := fun q : F =>
  Sampling.displaced K (Sampling.GetPositionAt K q)
    (Sampling.rightBound_deviationAt K q) (Sampling.GetNormalVectorAt K q).

Lemma emplace_samples_lists (arc_lengths : list F) :
  forall out : Sampling.Polylines P,
    Sampling.reference_line (Sampling.emplace_samples K arc_lengths out)
    = Sampling.reference_line out ++ map (Sampling.GetPositionAt K) arc_lengths
    /\ Sampling.left_boundary (Sampling.emplace_samples K arc_lengths out)
       = Sampling.left_boundary out ++ map left_of arc_lengths
    /\ Sampling.right_boundary (Sampling.emplace_samples K arc_lengths out)
       = Sampling.right_boundary out ++ map right_of arc_lengths.
Proof.
  induction arc_lengths as [|q rest IH]; intro out.
  - cbn. rewrite !app_nil_r. repeat split.
  - change (Sampling.emplace_samples K (q :: rest) out)
      with (Sampling.emplace_samples K rest (Sampling.emplace_sample K q out)).
    destruct (IH (Sampling.emplace_sample K q out)) as [Href [Hleft Hright]].
    rewrite Href, Hleft, Hright. cbn [Sampling.emplace_sample Sampling.reference_line
      Sampling.left_boundary Sampling.right_boundary map].
    rewrite <- !app_assoc. repeat split.
Qed.

Lemma visited_last (n : nat) :
  forall query_l : F,
    Sampling.visited A (S n) delta_l query_l
    = Sampling.visited A n delta_l query_l ++ [Sampling.sum_after A n delta_l query_l]
    /\ Sampling.sum_after A (S n) delta_l query_l
       = Sampling.add A (Sampling.sum_after A n delta_l query_l) delta_l.
Proof.
  induction n as [|n IH]; intro query_l; [split; reflexivity|].
  destruct (IH (Sampling.add A query_l delta_l)) as [Hvis Hsum]. split.
  - change (Sampling.visited A (S (S n)) delta_l query_l)
      with (query_l :: Sampling.visited A (S n) delta_l (Sampling.add A query_l delta_l)).
    rewrite Hvis. reflexivity.
  - exact Hsum.
Qed.

(** The loop when it is known where it stops. *)
Lemma generic_loop_run :
  forall (n fuel : nat) (query_l : F) (out : Sampling.Polylines P),
    Forall (fun q => Sampling.leb A q max_length = true)
      (Sampling.visited A n delta_l query_l) ->
    Sampling.leb A (Sampling.sum_after A n delta_l query_l) max_length = false ->
    (n < fuel)%nat ->
    Sampling.sampling_loop A K fuel delta_l max_length query_l out
    = Some (Sampling.sum_after A n delta_l query_l,
            Sampling.emplace_samples K (Sampling.visited A n delta_l query_l) out).
Proof.
  induction n as [|n IH]; intros fuel query_l out Hin Hout Hfuel;
    (destruct fuel as [|fuel]; [lia|]); cbn [Sampling.sampling_loop].
  - cbn [Sampling.sum_after] in Hout. rewrite Hout. reflexivity.
  - cbn [Sampling.visited] in Hin. apply Forall_cons_iff in Hin.
    destruct Hin as [Hhere Hrest]. rewrite Hhere.
    rewrite (IH fuel (Sampling.add A query_l delta_l)) by (assumption || lia).
    reflexivity.
Qed.

(** Where the loop stops when it returns. *)
Lemma generic_loop_returns :
  forall (fuel : nat) (query_l query_l' : F) (out out' : Sampling.Polylines P),
    Sampling.sampling_loop A K fuel delta_l max_length query_l out
    = Some (query_l', out') ->
    exists n : nat,
      Forall (fun q => Sampling.leb A q max_length = true)
        (Sampling.visited A n delta_l query_l)
      /\ query_l' = Sampling.sum_after A n delta_l query_l
      /\ Sampling.leb A query_l' max_length = false
      /\ out' = Sampling.emplace_samples K (Sampling.visited A n delta_l query_l) out.
Proof.
  induction fuel as [|fuel IH]; intros query_l query_l' out out' Hrun; [discriminate|].
  cbn [Sampling.sampling_loop] in Hrun.
  destruct (Sampling.leb A query_l max_length) eqn:E.
  - destruct (IH _ _ _ _ Hrun) as [n [Hall [Hq [Hexit Hout]]]].
    exists (S n). cbn [Sampling.visited Sampling.sum_after].
    split; [constructor; assumption|]. repeat split; assumption.
  - injection Hrun as <- <-. exists 0%nat. cbn [Sampling.visited Sampling.sum_after].
    split; [constructor|]. repeat split. exact E.
Qed.

(** When some repeated sum fails the loop test there is a first one that
    does, and the loop stops there. *)
Lemma generic_loop_stops :
  forall (N : nat) (query_l : F),
    Sampling.leb A (Sampling.sum_after A N delta_l query_l) max_length = false ->
    exists n : nat,
      (n <= N)%nat
      /\ Forall (fun q => Sampling.leb A q max_length = true)
           (Sampling.visited A n delta_l query_l)
      /\ Sampling.leb A (Sampling.sum_after A n delta_l query_l) max_length = false.
Proof.
  induction N as [|N IH]; intros query_l Hexit.
  - exists 0%nat. split; [lia|]. split; [constructor|exact Hexit].
  - destruct (Sampling.leb A query_l max_length) eqn:E.
    + destruct (IH (Sampling.add A query_l delta_l) Hexit) as [n [Hn [Hall Hstop]]].
      exists (S n). split; [lia|]. split; [|exact Hstop].
      cbn [Sampling.visited]. constructor; assumption.
    + exists 0%nat. split; [lia|]. split; [constructor|exact E].
Qed.

(** A value of [query_l] that passes the loop test and that the step leaves
    unchanged keeps the loop running. *)
Lemma generic_loop_stalls (max : F) (query_l : F) :
  Sampling.leb A query_l max = true ->
  Sampling.add A query_l delta_l = query_l ->
  forall (fuel : nat) (out : Sampling.Polylines P),
    Sampling.sampling_loop A K fuel delta_l max query_l out = None.
Proof.
  intros Hle Hsame. induction fuel as [|fuel IH]; intro out; [reflexivity|].
  cbn [Sampling.sampling_loop]. rewrite Hle, Hsame. apply IH.
Qed.

Hypothesis A_lawful : Sampling.lawful A.
Hypothesis delta_l_positive : Sampling.ltb A (Sampling.zero A) delta_l = true.

Lemma sum_after_nonneg :
  forall (n : nat) (query_l : F),
    Sampling.leb A (Sampling.zero A) query_l = true ->
    Sampling.leb A (Sampling.zero A) (Sampling.sum_after A n delta_l query_l) = true.
Proof.
  induction n as [|n IH]; intros query_l Hq; [exact Hq|].
  cbn [Sampling.sum_after]. apply IH.
  apply (Sampling.add_nonneg A A_lawful); assumption.
Qed.

End SamplingFacts.

(** ** What [fillCartesianPolylines] returns *)

(** C4, the statement as it stands, fails without the precondition on the
    step and on a reference line without a length: on doubles, with step 0
    the function returns with no amount of fuel, and with a length that is
    NaN it returns with all three outputs empty. *)
Lemma fillCartesianPolylines_no_sample :
  (forall (fuel : nat) (out : Sampling.Polylines (float * float)),
     Sampling.fillCartesianPolylines double (double_line 2%float) fuel 0%float out = None)
  /\ Sampling.fillCartesianPolylines double (double_line PrimFloat.nan) 10 1%float
       (Sampling.mkPolylines [(1%float, 1%float)] [] [])
     = Some (Sampling.mkPolylines [] [] []).
Proof.
  split; [|vm_compute; reflexivity].
  intros fuel out. unfold Sampling.fillCartesianPolylines.
  rewrite (generic_loop_stalls double (double_line 2%float) 0%float 2%float 0%float
             eq_refl eq_refl).
  reflexivity.
Qed.

(** C4, amended: for a step greater than 0 and a length not less than 0, in
    any arithmetic with the stated facts of order (the doubles, the exact
    numbers): as soon as some repeated sum of the step fails the loop test,
    [fillCartesianPolylines] returns; and whenever it returns, the three
    outputs hold nothing of what they held before; they hold the samples
    that the loop took at 0 and then at the repeated sums of the step, each
    at an arc-length that passes the loop test, followed by one sample at
    the total length.  So there is at least one sample, the first reference
    point is the position at arc-length 0, and the last point of each
    polyline is the one computed at the total length. *)
Theorem fillCartesianPolylines_returned {F P V : Type} (A : Sampling.arithmetic F)
    (K : Sampling.view F P V) (delta_l : F) :
  Sampling.lawful A ->
  Sampling.ltb A (Sampling.zero A) delta_l = true ->
  Sampling.leb A (Sampling.zero A) (Sampling.GetTotalLength K) = true ->
  (forall (N fuel : nat) (out : Sampling.Polylines P),
     Sampling.leb A (Sampling.sum_after A N delta_l (Sampling.zero A))
       (Sampling.GetTotalLength K) = false ->
     (N < fuel)%nat ->
     exists r, Sampling.fillCartesianPolylines A K fuel delta_l out = Some r)
  /\ forall (fuel : nat) (out r : Sampling.Polylines P),
       Sampling.fillCartesianPolylines A K fuel delta_l out = Some r ->
       exists n : nat,
         Forall (fun q => Sampling.leb A q (Sampling.GetTotalLength K) = true)
           (Sampling.zero A
            :: Sampling.visited A n delta_l (Sampling.add A (Sampling.zero A) delta_l))
         /\ Sampling.reference_line r
            = map (Sampling.GetPositionAt K)
                (Sampling.zero A
                 :: Sampling.visited A n delta_l
                      (Sampling.add A (Sampling.zero A) delta_l))
              ++ [Sampling.GetPositionAt K (Sampling.GetTotalLength K)]
         /\ Sampling.left_boundary r
            = map (fun q => Sampling.displaced K (Sampling.GetPositionAt K q)
                              (Sampling.leftBound_deviationAt K q)
                              (Sampling.GetNormalVectorAt K q))
                (Sampling.zero A
                 :: Sampling.visited A n delta_l
                      (Sampling.add A (Sampling.zero A) delta_l))
              ++ [Sampling.displaced K
                    (Sampling.GetPositionAt K (Sampling.GetTotalLength K))
                    (Sampling.leftBound_deviationAt K (Sampling.GetTotalLength K))
                    (Sampling.GetNormalVectorAt K (Sampling.GetTotalLength K))]
         /\ Sampling.right_boundary r
            = map (fun q => Sampling.displaced K (Sampling.GetPositionAt K q)
                              (Sampling.rightBound_deviationAt K q)
                              (Sampling.GetNormalVectorAt K q))
                (Sampling.zero A
                 :: Sampling.visited A n delta_l
                      (Sampling.add A (Sampling.zero A) delta_l))
              ++ [Sampling.displaced K
                    (Sampling.GetPositionAt K (Sampling.GetTotalLength K))
                    (Sampling.rightBound_deviationAt K (Sampling.GetTotalLength K))
                    (Sampling.GetNormalVectorAt K (Sampling.GetTotalLength K))].
Proof.
  intros Hlaw Hpos Hlen. split.
  { intros N fuel out Hexit Hfuel.
    destruct (generic_loop_stops A K delta_l N (Sampling.zero A) Hexit)
      as [n [Hn [Hall Hstop]]].
    unfold Sampling.fillCartesianPolylines.
    rewrite (generic_loop_run A K delta_l n fuel (Sampling.zero A)
               (Sampling.clear out) Hall Hstop) by lia.
    destruct (Sampling.ltb A (Sampling.GetTotalLength K)
                (Sampling.sum_after A n delta_l (Sampling.zero A)));
      eexists; reflexivity. }
  intros fuel out r Hrun. unfold Sampling.fillCartesianPolylines in Hrun.
  destruct (Sampling.sampling_loop A K fuel delta_l (Sampling.GetTotalLength K)
              (Sampling.zero A) (Sampling.clear out)) as [[query_l' out']|] eqn:Hloop;
    [|discriminate].
  destruct (generic_loop_returns A K delta_l fuel _ _ _ _ Hloop)
    as [n [Hall [Hq [Hexit Hout]]]].
  assert (Hnonneg : Sampling.leb A (Sampling.zero A) query_l' = true).
  { rewrite Hq. apply (sum_after_nonneg A delta_l Hlaw Hpos).
    apply (Sampling.zero_le_zero A Hlaw). }
  rewrite (Sampling.not_le_gt A Hlaw _ _ Hnonneg Hlen Hexit) in Hrun.
  injection Hrun as <-.
  destruct n as [|n].
  { exfalso. cbn [Sampling.sum_after] in Hq. subst query_l'. congruence. }
  exists n. cbn [Sampling.visited] in Hall, Hout. split; [exact Hall|].
  subst out'.
  destruct (emplace_samples_lists K
              (Sampling.zero A
               :: Sampling.visited A n delta_l (Sampling.add A (Sampling.zero A) delta_l))
              (Sampling.clear out)) as [Href [Hleft Hright]].
  cbn [Sampling.emplace_sample Sampling.reference_line Sampling.left_boundary
         Sampling.right_boundary].
  rewrite Href, Hleft, Hright. repeat split.
Qed.

Lemma fillCartesianPolylines_returned_witness :
  Sampling.ltb double (Sampling.zero double) double_0_7 = true
  /\ Sampling.leb double (Sampling.zero double) (Sampling.GetTotalLength (double_line 2%float))
     = true
  /\ Sampling.leb double (Sampling.sum_after double 3 double_0_7 (Sampling.zero double))
       (Sampling.GetTotalLength (double_line 2%float)) = false
  /\ exists r,
       Sampling.fillCartesianPolylines double (double_line 2%float) 4 double_0_7
         (Sampling.mkPolylines [(1%float, 1%float)] [] []) = Some r
       /\ exists n : nat,
            Sampling.reference_line r
            = map (Sampling.GetPositionAt (double_line 2%float))
                (Sampling.zero double
                 :: Sampling.visited double n double_0_7
                      (Sampling.add double (Sampling.zero double) double_0_7))
              ++ [Sampling.GetPositionAt (double_line 2%float)
                    (Sampling.GetTotalLength (double_line 2%float))].
Proof.
  split; [reflexivity|]. split; [reflexivity|]. split; [reflexivity|].
  destruct (fillCartesianPolylines_returned double (double_line 2%float) double_0_7
              double_lawful eq_refl eq_refl) as [Hreturns Hresult].
  destruct (Hreturns 3%nat 4%nat (Sampling.mkPolylines [(1%float, 1%float)] [] [])
              eq_refl (Nat.lt_succ_diag_r 3)) as [r Hr].
  exists r. split; [exact Hr|].
  destruct (Hresult 4%nat (Sampling.mkPolylines [(1%float, 1%float)] [] []) r Hr)
    as [n [_ [Href _]]].
  exists n. exact Href.
Defined.

(** The sampling of the description on doubles: step 0.7 on a line of
    length 2 gives the arc-lengths 0, 0.7, 1.4 and the forced 2. *)
Example double_samples_step_07 :
  option_map (fun r => map fst (Sampling.reference_line r))
    (Sampling.fillCartesianPolylines double (double_line 2%float) 10 double_0_7
       (Sampling.mkPolylines [(1%float, 1%float)] [] []))
  = Some [0%float; double_0_7; 0x1.6666666666666p+0%float; 2%float].
Proof. vm_compute. reflexivity. Qed.

(** ** A length that the repeated sum reaches *)

(** C9, the statement as it stands, fails on doubles: 5.6 is 8 times 0.7 as
    doubles, but the eighth repeated sum of 0.7 is the next double above
    5.6; the loop samples 8 arc-lengths, the last of them below 4.91, and
    the sample at 5.6 is emitted once. *)
Lemma multiple_of_step_sampled_once :
  PrimFloat.mul 8%float double_0_7 = double_5_6
  /\ option_map (fun r => map fst (Sampling.reference_line r))
       (Sampling.fillCartesianPolylines double (double_line double_5_6) 20 double_0_7
          (Sampling.mkPolylines [] [] []))
     = Some [0%float; double_0_7; 0x1.6666666666666p+0%float;
             0x1.0ccccccccccccp+1%float; 0x1.6666666666666p+1%float;
             0x1.cp+1%float; 0x1.0cccccccccccdp+2%float;
             0x1.399999999999ap+2%float; double_5_6].
Proof. split; vm_compute; reflexivity. Qed.

(** C9, amended: for a length not less than 0, when the repeated sum of the
    step is the total length after [k] additions, the earlier sums pass the
    loop test and one more step takes the sum beyond the length, then
    [fillCartesianPolylines] returns and the sample at the total length is
    emitted twice: once by the last round of the loop and once by the block
    after the loop, so each of the three polylines ends with the same point
    twice. *)
Theorem fillCartesianPolylines_length_reached {F P V : Type} (A : Sampling.arithmetic F)
    (K : Sampling.view F P V) (delta_l : F) (k fuel : nat) (out : Sampling.Polylines P) :
  Sampling.lawful A ->
  Sampling.leb A (Sampling.zero A) (Sampling.GetTotalLength K) = true ->
  Forall (fun q => Sampling.leb A q (Sampling.GetTotalLength K) = true)
    (Sampling.visited A k delta_l (Sampling.zero A)) ->
  Sampling.sum_after A k delta_l (Sampling.zero A) = Sampling.GetTotalLength K ->
  Sampling.ltb A (Sampling.GetTotalLength K)
    (Sampling.add A (Sampling.GetTotalLength K) delta_l) = true ->
  (k + 2 <= fuel)%nat ->
  exists r : Sampling.Polylines P,
    Sampling.fillCartesianPolylines A K fuel delta_l out = Some r
    /\ Sampling.reference_line r
       = map (Sampling.GetPositionAt K) (Sampling.visited A k delta_l (Sampling.zero A))
         ++ [Sampling.GetPositionAt K (Sampling.GetTotalLength K);
             Sampling.GetPositionAt K (Sampling.GetTotalLength K)]
    /\ Sampling.left_boundary r
       = map (fun q => Sampling.displaced K (Sampling.GetPositionAt K q)
                         (Sampling.leftBound_deviationAt K q)
                         (Sampling.GetNormalVectorAt K q))
           (Sampling.visited A k delta_l (Sampling.zero A))
         ++ [Sampling.displaced K
               (Sampling.GetPositionAt K (Sampling.GetTotalLength K))
               (Sampling.leftBound_deviationAt K (Sampling.GetTotalLength K))
               (Sampling.GetNormalVectorAt K (Sampling.GetTotalLength K));
             Sampling.displaced K
               (Sampling.GetPositionAt K (Sampling.GetTotalLength K))
               (Sampling.leftBound_deviationAt K (Sampling.GetTotalLength K))
               (Sampling.GetNormalVectorAt K (Sampling.GetTotalLength K))]
    /\ Sampling.right_boundary r
       = map (fun q => Sampling.displaced K (Sampling.GetPositionAt K q)
                         (Sampling.rightBound_deviationAt K q)
                         (Sampling.GetNormalVectorAt K q))
           (Sampling.visited A k delta_l (Sampling.zero A))
         ++ [Sampling.displaced K
               (Sampling.GetPositionAt K (Sampling.GetTotalLength K))
               (Sampling.rightBound_deviationAt K (Sampling.GetTotalLength K))
               (Sampling.GetNormalVectorAt K (Sampling.GetTotalLength K));
             Sampling.displaced K
               (Sampling.GetPositionAt K (Sampling.GetTotalLength K))
               (Sampling.rightBound_deviationAt K (Sampling.GetTotalLength K))
               (Sampling.GetNormalVectorAt K (Sampling.GetTotalLength K))].
Proof.
  intros Hlaw Hlen Hall Hsum Hnext Hfuel.
  destruct (visited_last A delta_l k (Sampling.zero A)) as [Hvis Hsum'].
  rewrite Hsum in Hvis, Hsum'.
  assert (Hall' : Forall (fun q => Sampling.leb A q (Sampling.GetTotalLength K) = true)
                    (Sampling.visited A (S k) delta_l (Sampling.zero A))).
  { rewrite Hvis. apply Forall_app. split; [exact Hall|].
    constructor; [|constructor]. apply (Sampling.le_refl A Hlaw). exact Hlen. }
  assert (Hexit : Sampling.leb A (Sampling.sum_after A (S k) delta_l (Sampling.zero A))
                    (Sampling.GetTotalLength K) = false).
  { rewrite Hsum'. apply (Sampling.lt_not_le A Hlaw). exact Hnext. }
  eexists. split.
  - unfold Sampling.fillCartesianPolylines.
    rewrite (generic_loop_run A K delta_l (S k) fuel (Sampling.zero A)
               (Sampling.clear out) Hall' Hexit) by lia.
    rewrite Hsum', Hnext. reflexivity.
  - destruct (emplace_samples_lists K (Sampling.visited A (S k) delta_l (Sampling.zero A))
                (Sampling.clear out)) as [Href [Hleft Hright]].
    cbn [Sampling.emplace_sample Sampling.reference_line Sampling.left_boundary
           Sampling.right_boundary].
    rewrite Href, Hleft, Hright, Hvis, !map_app. cbn [Sampling.clear
      Sampling.reference_line Sampling.left_boundary Sampling.right_boundary app map].
    rewrite <- !app_assoc. repeat split.
Qed.

Lemma fillCartesianPolylines_length_reached_witness :
  Sampling.sum_after double 4 0.5%float (Sampling.zero double)
  = Sampling.GetTotalLength (double_line 2%float)
  /\ Sampling.ltb double (Sampling.GetTotalLength (double_line 2%float))
       (Sampling.add double (Sampling.GetTotalLength (double_line 2%float)) 0.5%float)
     = true
  /\ exists r,
       Sampling.fillCartesianPolylines double (double_line 2%float) 6 0.5%float
         (Sampling.mkPolylines [] [] []) = Some r
       /\ Sampling.reference_line r
          = map (Sampling.GetPositionAt (double_line 2%float))
              (Sampling.visited double 4 0.5%float (Sampling.zero double))
            ++ [Sampling.GetPositionAt (double_line 2%float)
                  (Sampling.GetTotalLength (double_line 2%float));
                Sampling.GetPositionAt (double_line 2%float)
                  (Sampling.GetTotalLength (double_line 2%float))].
Proof.
  split; [reflexivity|]. split; [reflexivity|].
  destruct (fillCartesianPolylines_length_reached double (double_line 2%float) 0.5%float
              4 6 (Sampling.mkPolylines [] [] []) double_lawful eq_refl)
    as [r [Hr [Href _]]].
  - repeat constructor.
  - reflexivity.
  - reflexivity.
  - lia.
  - exists r. split; [exact Hr|exact Href].
Defined.

(** ** A step that the rounding absorbs *)

(** C8: on doubles, with step 1 and length 2^53 + 2 (both positive and
    finite), 2^53 passes the loop test and 2^53 + 1 rounds to 2^53; from
    there [query_l] never changes and the loop exits with no amount of
    fuel. *)
Theorem sampling_loop_absorbs_step (fuel : nat) (out : Sampling.Polylines (float * float)) :
  Sampling.ltb double (Sampling.zero double) 1%float = true
  /\ Sampling.leb double double_2_53 9007199254740994%float = true
  /\ Sampling.add double double_2_53 1%float = double_2_53
  /\ Sampling.sampling_loop double (double_line 9007199254740994%float) fuel 1%float
       9007199254740994%float double_2_53 out = None.
Proof.
  split; [reflexivity|]. split; [reflexivity|]. split; [reflexivity|].
  apply generic_loop_stalls; reflexivity.
Qed.
